(** * nengo_mpi: a shallow embedding of the per-step execution engine

    The development follows the C++ sources of nengo_mpi:
    - [mpi_sim/mpi_operator.cpp]: [MPISend], [MPIRecv], [MPIBarrier];
    - [mpi_sim/python.cpp]: the Python bridge ([ndarray_to_vector],
      [ndarray_to_matrix], [PyFunc::operator()]);
    - the simulator sources ([MpiSimulator::reset], [start_worker],
      [compare_op_ptr]).

    MPI point-to-point messages between one sender and one receiver on one
    tag are non-overtaking: they are modelled as a FIFO queue of payloads
    ([list dtype]).  A posted [MPI_Irecv] is matched against the head of
    that queue when it is waited on; since every [MPIRecv] keeps at most
    one receive outstanding, this is the message MPI would match to it. *)

From Stdlib Require Import List Arith Lia Bool ZArith QArith Sorting.Sorted
  Sorting.Permutation FunctionalExtensionality.
From Stdlib Require String.
Import ListNotations.
Open Scope nat_scope.

(* ------------------------------------------------------------------ *)
(** ** Communication operators ([mpi_operator.cpp]) *)

Section MPIOperators.

Variable dtype : Type.

(** [class MPISend]: destination, tag, send buffer and the [first_call]
    flag.  The pending [request] is the message the operator appended to
    the channel; [size] is implicit in the payload. *)
Record MPISend := mkMPISend {
  send_dst : nat;
  send_tag : nat;
  send_first_call : bool;
  send_buffer : dtype
}.

(** [class MPIRecv]. *)
Record MPIRecv := mkMPIRecv {
  recv_src : nat;
  recv_tag : nat;
  recv_first_call : bool;
  recv_buffer : dtype
}.

(** [void MPISend::operator()()], given the current value of the content
    view and the channel to [dst] on [tag].  The [MPI_Wait] on the
    previous send request completes without changing any value (the
    message is already in the channel). *)
Definition MPISend_call (op : MPISend) (content : dtype) (chan : list dtype)
  : MPISend * list dtype :=
  (* if(first_call) first_call = false; else MPI_Wait(&request, &status); *)
  let op1 := mkMPISend (send_dst op) (send_tag op) false (send_buffer op) in
  (* memcpy(buffer, content_data, size * sizeof(dtype)); *)
  let op2 := mkMPISend (send_dst op1) (send_tag op1) false content in
  (* MPI_Isend(buffer, size, MPI_DOUBLE, dst, tag, comm, &request); *)
  (op2, chan ++ [send_buffer op2]).

(** [void MPIRecv::operator()()], given the channel from [src] on [tag];
    returns the new operator, the value copied into the content view (if
    any) and the new channel, or [None] when [MPI_Wait] blocks because the
    peer has not sent the matching message yet. *)
Definition MPIRecv_call (op : MPIRecv) (chan : list dtype)
  : option (MPIRecv * option dtype * list dtype) :=
  if recv_first_call op then
    (* first_call = false; then MPI_Irecv posts the first receive *)
    Some (mkMPIRecv (recv_src op) (recv_tag op) false (recv_buffer op),
          None, chan)
  else
    match chan with
    | [] => None (* MPI_Wait(&request, &status) blocks *)
    | m :: rest =>
        (* the wait completes the receive into buffer;
           memcpy(content_data, buffer, size * sizeof(dtype));
           MPI_Irecv posts the next receive *)
        let op1 := mkMPIRecv (recv_src op) (recv_tag op) false m in
        Some (op1, Some (recv_buffer op1), rest)
    end.

(** Writing the copied value (if any) into the content view. *)
Definition copy_into (copied : option dtype) (content : dtype) : dtype :=
  match copied with
  | Some v => v
  | None => content
  end.

End MPIOperators.

Arguments mkMPISend {dtype}.
Arguments mkMPIRecv {dtype}.
Arguments send_first_call {dtype}.
Arguments send_buffer {dtype}.
Arguments recv_first_call {dtype}.
Arguments recv_buffer {dtype}.
Arguments recv_src {dtype}.
Arguments recv_tag {dtype}.
Arguments send_dst {dtype}.
Arguments send_tag {dtype}.
Arguments MPISend_call {dtype}.
Arguments MPIRecv_call {dtype}.
Arguments copy_into {dtype}.

(** *** One link: an [MPISend] in one chunk matched with an [MPIRecv] in
    another.  Each event is one call of one of the two operators (one per
    step of the chunk that owns it); any interleaving of the two chunks is
    a schedule. *)
Module Link.
Section Link.

Variable dtype : Type.

(** [x k]: the value the sender's content view holds when the send
    operator runs in the sender's step [k] (after every writer of it). *)
Variable x : nat -> dtype.

Record state := mkState {
  l_send : MPISend dtype;
  l_recv : MPIRecv dtype;
  l_content : dtype;      (* the receive's content view *)
  l_chan : list dtype;    (* messages sent and not yet received *)
  l_nsend : nat;          (* steps done by the sender *)
  l_nrecv : nat           (* steps done by the receiver *)
}.

Inductive event := EvSend | EvRecv.

Definition step (e : event) (L : state) : option state :=
  match e with
  | EvSend =>
      let '(op, ch) := MPISend_call (l_send L) (x (l_nsend L)) (l_chan L) in
      Some (mkState op (l_recv L) (l_content L) ch (S (l_nsend L)) (l_nrecv L))
  | EvRecv =>
      match MPIRecv_call (l_recv L) (l_chan L) with
      | None => None
      | Some (op, c, ch) =>
          Some (mkState (l_send L) op (copy_into c (l_content L)) ch
                  (l_nsend L) (S (l_nrecv L)))
      end
  end.

Fixpoint exec (sch : list event) (L : state) : option state :=
  match sch with
  | [] => Some L
  | e :: sch' =>
      match step e L with
      | None => None
      | Some L' => exec sch' L'
      end
  end.

(** Both operators as built: [first_call(true)], nothing in flight. *)
Definition init (src dst tag : nat) (b0 c0 : dtype) : state :=
  mkState (mkMPISend dst tag true b0) (mkMPIRecv src tag true b0) c0 [] 0 0.

End Link.
End Link.

Arguments Link.mkState {dtype}.
Arguments Link.l_send {dtype}.
Arguments Link.l_recv {dtype}.
Arguments Link.l_content {dtype}.
Arguments Link.l_chan {dtype}.
Arguments Link.l_nsend {dtype}.
Arguments Link.l_nrecv {dtype}.
Arguments Link.step {dtype}.
Arguments Link.exec {dtype}.
Arguments Link.init {dtype}.

(** *** Several chunks stepping concurrently.

    Modelled from the spec: the chunk's step loop
    ([MpiSimulatorChunk::run_n_steps] and the operator list built by
    [finalize_build], not among the sources): every step of a chunk calls
    its operators in order, then the probes sample and [time] advances
    (the [end_step] function below).  Any operator that does not
    communicate is a function of the chunk's local state (its signals,
    probes and time); [MPISend] and [MPIRecv] are the calls above.  The
    periodic [MPIBarrier] only blocks and is left out.  A message from
    chunk [src] to chunk [dst] on [tag] travels on the FIFO channel
    [(src, dst, tag)]. *)
Module Net.
Section Net.

Variable LS : Type.       (* local state of a chunk *)
Variable dtype : Type.

Inductive op :=
  | OpLocal (f : LS -> LS)
  | OpSend (dst tag : nat) (content : LS -> dtype)
  | OpRecv (src tag : nat) (content : dtype -> LS -> LS).

(** [prog i]: chunk [i]'s operator list after [finalize_build]. *)
Variable prog : nat -> list op.
(** Probes sample, [time += dt], probes flush. *)
Variable end_step : LS -> LS.

Definition key := (nat * nat * nat)%type.

Definition key_eqb (k1 k2 : key) : bool :=
  let '(a1, b1, c1) := k1 in
  let '(a2, b2, c2) := k2 in
  (a1 =? a2) && (b1 =? b2) && (c1 =? c2).

Definition upd {A B} (eqb : A -> A -> bool) (f : A -> B) (a : A) (b : B)
  : A -> B :=
  fun a' => if eqb a' a then b else f a'.

(** One chunk: its local state, the position of the next operator in its
    list, and the state of the communication operator at each position. *)
Record proc := mkProc {
  p_local : LS;
  p_pc : nat;
  p_sends : nat -> MPISend dtype;
  p_recvs : nat -> MPIRecv dtype
}.

Record net := mkNet {
  procs : nat -> proc;
  chans : key -> list dtype
}.

(** After an operator: next operator, or end of the step. *)
Definition advance (i : nat) (p : proc) (s : LS) (snd : nat -> MPISend dtype)
    (rcv : nat -> MPIRecv dtype) : proc :=
  if S (p_pc p) <? length (prog i)
  then mkProc s (S (p_pc p)) snd rcv
  else mkProc (end_step s) 0 snd rcv.

(** The channel the next operator of chunk [i] uses (a local operator is
    given the unused key [(i, i, 0)] and leaves its queue as it is). *)
Definition op_chan (i : nat) (p : proc) : key :=
  match nth_error (prog i) (p_pc p) with
  | Some (OpSend dst tag _) => (i, dst, tag)
  | Some (OpRecv src tag _) => (src, i, tag)
  | _ => (i, i, 0)
  end.

(** The next operator of chunk [i], given the queue of its channel. *)
Definition proc_step (i : nat) (p : proc) (q : list dtype)
  : option (proc * list dtype) :=
  match nth_error (prog i) (p_pc p) with
  | None => None
  | Some (OpLocal f) =>
      Some (advance i p (f (p_local p)) (p_sends p) (p_recvs p), q)
  | Some (OpSend dst tag rd) =>
      let '(o, q') := MPISend_call (p_sends p (p_pc p)) (rd (p_local p)) q in
      Some (advance i p (p_local p) (upd Nat.eqb (p_sends p) (p_pc p) o)
              (p_recvs p), q')
  | Some (OpRecv src tag wr) =>
      match MPIRecv_call (p_recvs p (p_pc p)) q with
      | None => None
      | Some (o, copied, q') =>
          let s' := match copied with
                    | Some v => wr v (p_local p)
                    | None => p_local p
                    end in
          Some (advance i p s' (p_sends p)
                  (upd Nat.eqb (p_recvs p) (p_pc p) o), q')
      end
  end.

Definition step (i : nat) (g : net) : option net :=
  let p := procs g i in
  let k := op_chan i p in
  match proc_step i p (chans g k) with
  | None => None
  | Some (p', q') =>
      Some (mkNet (upd Nat.eqb (procs g) i p') (upd key_eqb (chans g) k q'))
  end.

(** A schedule: which chunk runs its next operator. *)
Fixpoint exec (sch : list nat) (g : net) : option net :=
  match sch with
  | [] => Some g
  | i :: sch' =>
      match step i g with
      | None => None
      | Some g' => exec sch' g'
      end
  end.

End Net.
End Net.

Arguments Net.OpLocal {LS dtype}.
Arguments Net.OpSend {LS dtype}.
Arguments Net.OpRecv {LS dtype}.
Arguments Net.mkProc {LS dtype}.
Arguments Net.p_local {LS dtype}.
Arguments Net.p_pc {LS dtype}.
Arguments Net.p_sends {LS dtype}.
Arguments Net.p_recvs {LS dtype}.
Arguments Net.mkNet {LS dtype}.
Arguments Net.procs {LS dtype}.
Arguments Net.chans {LS dtype}.
Arguments Net.upd {A B}.
Arguments Net.advance {LS dtype}.
Arguments Net.op_chan {LS dtype}.
Arguments Net.proc_step {LS dtype}.
Arguments Net.step {LS dtype}.
Arguments Net.exec {LS dtype}.

(** A two-chunk ring: each chunk resets [x], sends it to the other chunk
    and receives the other's [x] into [y]; at the end of a step the probe
    samples [y].  Local state: [(x, y, probe buffer)]. *)
Module RingExample.

Definition LS := (Z * Z * list Z)%type.

Definition set_x (v : Z) (s : LS) : LS :=
  let '(_, y, pr) := s in (v, y, pr).
Definition get_x (s : LS) : Z := let '(x, _, _) := s in x.
Definition set_y (v : Z) (s : LS) : LS :=
  let '(x, _, pr) := s in (x, v, pr).
Definition sample_y (s : LS) : LS :=
  let '(x, y, pr) := s in (x, y, pr ++ [y]).

Definition prog (i : nat) : list (Net.op LS Z) :=
  match i with
  | 0 => [Net.OpLocal (set_x 1); Net.OpSend 1 7 get_x;
          Net.OpRecv 1 8 set_y]
  | 1 => [Net.OpLocal (set_x 2); Net.OpSend 0 8 get_x;
          Net.OpRecv 0 7 set_y]
  | _ => []
  end.

Definition init : Net.net LS Z :=
  Net.mkNet (fun _ => Net.mkProc (0%Z, 0%Z, []) 0
                        (fun _ => mkMPISend 0 0 true 0%Z)
                        (fun _ => mkMPIRecv 0 0 true 0%Z))
            (fun _ => []).

(** Two steps of both chunks, chunk 0 first, or chunk 1 first. *)
Definition sched0 : list nat := [0; 0; 0; 1; 1; 1; 0; 0; 0; 1; 1; 1].
Definition sched1 : list nat := [1; 1; 1; 0; 0; 0; 0; 1; 1; 0; 0; 1].

End RingExample.

(* ------------------------------------------------------------------ *)
(** ** [MPIBarrier] ([mpi_operator.cpp]) *)

(** [class MPIBarrier]: the step counter ([int step]). *)
Record MPIBarrier := mkMPIBarrier { barrier_step : nat }.

(** The constructor is declared in [mpi_operator.hpp], which is not among
    the sources; the guard [step != 0] of [operator()] is written for a
    counter that starts at 0. *)
Definition MPIBarrier_init : MPIBarrier := mkMPIBarrier 0.

(** [void MPIBarrier::operator()()]: the new operator, and whether
    [MPI_Barrier(comm)] was called. *)
Definition MPIBarrier_call (BARRIER_PERIOD : nat) (b : MPIBarrier)
  : MPIBarrier * bool :=
  let step := barrier_step b in
  let did_barrier := negb (step =? 0) && (step mod BARRIER_PERIOD =? 0) in
  (mkMPIBarrier (S step), did_barrier).

(** Whether each of [n] successive calls performed the barrier. *)
Fixpoint barrier_trace (BARRIER_PERIOD : nat) (b : MPIBarrier) (n : nat)
  : list bool :=
  match n with
  | 0 => []
  | S n' =>
      let '(b', did) := MPIBarrier_call BARRIER_PERIOD b in
      did :: barrier_trace BARRIER_PERIOD b' n'
  end.

(* ------------------------------------------------------------------ *)
(** ** Operator order ([compare_op_ptr], [finalize_build]) *)

Module Schedule.

(** An operator as the step loop sees it: its float [index] (a float that
    is not NaN is a rational number) and the operator itself. *)
Record Operator (A : Type) := mkOperator {
  get_index : Q;
  op_body : A
}.
Arguments mkOperator {A}.
Arguments get_index {A}.
Arguments op_body {A}.

Definition Qlt_bool (a b : Q) : bool := negb (Qle_bool b a).

(** [inline bool compare_op_ptr(const Operator* left, const Operator* right)]:
    [left->get_index() < right->get_index()]. *)
Definition compare_op_ptr {A} (left right : Operator A) : bool :=
  Qlt_bool (get_index left) (get_index right).

(** Modelled from the spec: [finalize_build] (not among the sources) sorts
    the operator list by [compare_op_ptr], stably ("Sort operators by
    [index] ascending (stable)").  A stable sort has one result; it is
    computed here by insertion, each operator going after every operator
    already placed whose index is not greater. *)
Fixpoint insert_op {A} (cmp : Operator A -> Operator A -> bool)
    (o : Operator A) (l : list (Operator A)) : list (Operator A) :=
  match l with
  | [] => [o]
  | o' :: l' => if cmp o o' then o :: l else o' :: insert_op cmp o l'
  end.

Definition stable_sort {A} (cmp : Operator A -> Operator A -> bool)
    (l : list (Operator A)) : list (Operator A) :=
  fold_left (fun acc o => insert_op cmp o acc) l [].

(** The operator list the step loop walks after [finalize_build], given the
    operators in insertion order. *)
Definition finalize_build {A} (operator_list : list (Operator A))
  : list (Operator A) :=
  stable_sort compare_op_ptr operator_list.

End Schedule.

(* ------------------------------------------------------------------ *)
(** ** Probes *)

Module ProbeModel.

(** Modelled from the spec: [class Probe] ([probe.cpp], not among the
    sources): "[sample(step)]: if [step mod period == 0], append a fresh
    copy of the current target view into the buffer". *)
Record Probe (V : Type) := mkProbe {
  period : nat;
  buffer : list V
}.
Arguments mkProbe {V}.
Arguments period {V}.
Arguments buffer {V}.

Definition sample {V} (pr : Probe V) (step : nat) (target : V) : Probe V :=
  if step mod period pr =? 0
  then mkProbe (period pr) (buffer pr ++ [target])
  else pr.

(** Modelled from the spec: [run_n_steps(n)] from step counter [start]
    samples the probe once per step; [target s] is the value of the probed
    view at the end of step [s]. *)
Definition run_n_steps {V} (pr : Probe V) (target : nat -> V)
    (start n : nat) : Probe V :=
  fold_left (fun pr s => sample pr s (target s)) (seq start n) pr.

End ProbeModel.

(** ** The worker's build loop ([start_worker]) *)

Module Worker.

(** Modelled from the spec: the flag constants are defined outside the
    sources; the wire protocol gives "[add_signal=1], [add_op=2],
    [add_probe=3], [stop=4]". *)
Definition add_signal_flag : Z := 1%Z.
Definition add_op_flag : Z := 2%Z.
Definition add_probe_flag : Z := 3%Z.
Definition stop_flag : Z := 4%Z.

Section Worker.

(** Keys ([key_type]) and matrix payloads are opaque to the loop. *)
Variables key matrix chunk : Type.

(** The chunk's build methods, as the loop calls them. *)
Variable add_base_signal : chunk -> key -> String.string -> matrix -> chunk.
Variable add_op : chunk -> String.string -> chunk.
Variable add_probe : chunk -> key -> String.string -> Z -> chunk.

(** One message of the master's setup stream on [setup_tag], as read by
    [recv_int], [recv_key], [recv_string] and [recv_matrix]. *)
Inductive msg :=
| MInt (z : Z)
| MKey (k : key)
| MString (s : String.string)
| MMatrix (m : matrix).

(** A receive of the wrong kind, or on an exhausted stream, gets [None]:
    the worker does not get past it. *)
Definition recv_int (ms : list msg) : option (Z * list msg) :=
  match ms with MInt z :: ms' => Some (z, ms') | _ => None end.

Definition recv_key (ms : list msg) : option (key * list msg) :=
  match ms with MKey k :: ms' => Some (k, ms') | _ => None end.

Definition recv_string (ms : list msg) : option (String.string * list msg) :=
  match ms with MString s :: ms' => Some (s, ms') | _ => None end.

Definition recv_matrix (ms : list msg) : option (matrix * list msg) :=
  match ms with MMatrix m :: ms' => Some (m, ms') | _ => None end.

(** How the loop ends: at [break] with the chunk built so far and the
    messages not read, at the [throw runtime_error("Worker received invalid
    flag from master.")], or stuck on a receive. *)
Inductive worker_result :=
| WDone (c : chunk) (rest : list msg)
| WInvalid (c : chunk)
| WStuck.

(** The [while(1)] loop; every iteration reads at least one message, so
    [fuel] bounds the iterations. *)
Fixpoint worker_loop (fuel : nat) (ms : list msg) (c : chunk) : worker_result :=
  match fuel with
  | O => WStuck
  | S fuel' =>
    match recv_int ms with
    | None => WStuck
    | Some (s, ms1) =>
      if (s =? add_signal_flag)%Z then
        match recv_key ms1 with
        | None => WStuck
        | Some (k, ms2) =>
          match recv_string ms2 with
          | None => WStuck
          | Some (label, ms3) =>
            match recv_matrix ms3 with
            | None => WStuck
            | Some (data, ms4) =>
              worker_loop fuel' ms4 (add_base_signal c k label data)
            end
          end
        end
      else if (s =? add_op_flag)%Z then
        match recv_string ms1 with
        | None => WStuck
        | Some (op_string, ms2) => worker_loop fuel' ms2 (add_op c op_string)
        end
      else if (s =? add_probe_flag)%Z then
        match recv_key ms1 with
        | None => WStuck
        | Some (probe_key, ms2) =>
          match recv_string ms2 with
          | None => WStuck
          | Some (signal_string, ms3) =>
            match recv_int ms3 with
            | None => WStuck
            | Some (period, ms4) =>
              worker_loop fuel' ms4 (add_probe c probe_key signal_string period)
            end
          end
        end
      else if (s =? stop_flag)%Z then WDone c ms1
      else WInvalid c
    end
  end.

(** The build phase of [start_worker] on the stream [ms], after the chunk
    [c] has been created. *)
Definition start_worker (ms : list msg) (c : chunk) : worker_result :=
  worker_loop (length ms) ms c.

(** A build record as the master sends it. *)
Inductive record :=
| RSignal (k : key) (label : String.string) (data : matrix)
| ROp (op_string : String.string)
| RProbe (probe_key : key) (signal_string : String.string) (period : Z).

Definition encode (r : record) : list msg :=
  match r with
  | RSignal k label data => [MInt add_signal_flag; MKey k; MString label; MMatrix data]
  | ROp s => [MInt add_op_flag; MString s]
  | RProbe k s p => [MInt add_probe_flag; MKey k; MString s; MInt p]
  end.

Definition apply_record (c : chunk) (r : record) : chunk :=
  match r with
  | RSignal k label data => add_base_signal c k label data
  | ROp s => add_op c s
  | RProbe k s p => add_probe c k s p
  end.

End Worker.

Arguments MInt {key matrix}.
Arguments MKey {key matrix}.
Arguments MString {key matrix}.
Arguments MMatrix {key matrix}.
Arguments WDone {key matrix chunk}.
Arguments WInvalid {key matrix chunk}.
Arguments WStuck {key matrix chunk}.
Arguments RSignal {key matrix}.
Arguments ROp {key matrix}.
Arguments RProbe {key matrix}.
Arguments encode {key matrix}.
Arguments worker_loop {key matrix chunk}.
Arguments start_worker {key matrix chunk}.
Arguments apply_record {key matrix chunk}.

End Worker.

(** ** The Python bridge *)

Module PyBridge.

Section PyBridge.

(** A Python float's value, a C [float], and [dtype] (the signal store's
    element type, [double]: [get_time_pointer] returns a [dtype*] that is
    stored in a [double*]). *)
Variables pydouble cfloat dtype : Type.

(** [bpy::extract<float>] of a Python number: the conversion to a C
    [float]. *)
Variable to_cfloat : pydouble -> cfloat.
(** The assignment of a [float] to a [dtype] element. *)
Variable to_dtype : cfloat -> dtype.

(** The Python objects the bridge sees: numbers, indexable sequences (lists
    and arrays, rows of a 2-d array being sequences themselves), and any
    other object. *)
#[warnings="-register-all"]
Inductive PyObj :=
| PyFloat (v : pydouble)
| PySeq (l : list PyObj)
| PyOther.

(** [bpy::extract<float>(o)]: [None] when it throws [error_already_set]. *)
Definition extract_float (o : PyObj) : option cfloat :=
  match o with PyFloat v => Some (to_cfloat v) | _ => None end.

(** [o[i]]: [None] when it raises (not indexable, or [IndexError]). *)
Definition getitem (o : PyObj) (i : nat) : option PyObj :=
  match o with PySeq l => nth_error l i | _ => None end.

(** [( *v)[i] = x] on a [Vector], for an index in range: the callers only
    use it in range ([PyFunc_call] handles the empty output on its own), so
    the out-of-range case is never reached. *)
Fixpoint set_nth (l : list dtype) (i : nat) (x : dtype) : list dtype :=
  match l, i with
  | [], _ => []
  | _ :: l', O => x :: l'
  | y :: l', S i' => y :: set_nth l' i' x
  end.

(** A numpy array: its [ndim], [shape] and the object indexed by [a[i]]
    and [a[i][j]]. *)
Record ndarray := mkNdarray {
  nd_ndim : nat;
  nd_shape : list nat;
  nd_obj : PyObj
}.

Definition nd_size (a : ndarray) : nat := fold_right Nat.mul 1 (nd_shape a).

Definition is_vector (a : ndarray) : bool := nd_ndim a =? 1.

(** [a[i]] then [bpy::extract<float>], stored into the [dtype] store. *)
Definition extract_item (o : PyObj) (i : nat) : option dtype :=
  match getitem o i with
  | Some x => option_map to_dtype (extract_float x)
  | None => None
  end.

Fixpoint collect {T} (items : list (option T)) : option (list T) :=
  match items with
  | [] => Some []
  | Some x :: r => option_map (cons x) (collect r)
  | None :: _ => None
  end.

(** [ndarray_to_vector]: [( *ret)(i) = bpy::extract<float>(a[i])] for
    [i < a.size]; [None] when an extraction throws. *)
Definition ndarray_to_vector (a : ndarray) : option (list dtype) :=
  collect (map (extract_item (nd_obj a)) (seq 0 (nd_size a))).

(** [ndarray_to_matrix]: [( *ret)(i, j) = bpy::extract<float>(a[i][j])]
    over [shape[0]] x [shape[1]], as a list of rows. *)
Definition ndarray_to_matrix (a : ndarray) : option (list (list dtype)) :=
  collect (map (fun i =>
      match getitem (nd_obj a) i with
      | Some row => collect (map (extract_item row) (seq 0 (nth 1 (nd_shape a) 0)))
      | None => None
      end) (seq 0 (nth 0 (nd_shape a) 0))).

(** A base signal as [add_vector_signal] / [add_matrix_signal] store it. *)
Inductive BaseSignal :=
| SigVector (v : list dtype)
| SigMatrix (m : list (list dtype)).

(** [PythonMpiSimulatorChunk::add_signal]: a 1-d array becomes a vector
    signal, any other a matrix signal. *)
Definition add_signal (sig : ndarray) : option BaseSignal :=
  if is_vector sig then option_map SigVector (ndarray_to_vector sig)
  else option_map SigMatrix (ndarray_to_matrix sig).

(** The Python callback, called with the time when [supply_time] and with
    the numpy array [py_input] (after the input has been copied into it)
    when [supply_input]. *)
Variable py_fn : option dtype -> option (list dtype) -> PyObj.

(** The operator's fields: the output and input vectors, the two flags,
    and the values held by the numpy array [py_input]. *)
Record PyFunc := mkPyFunc {
  output : list dtype;
  supply_time : bool;
  supply_input : bool;
  input : list dtype;
  py_input : list dtype
}.

(** The end of [PyFunc::operator()]: [PyOk] with the new output, [PyError]
    with the output as written when an exception left it, or
    [PyOutOfRange] for the write [( *output)[0]] on an empty output, out of
    the vector's bounds. *)
Inductive py_result :=
| PyOk (out : list dtype)
| PyError (out : list dtype)
| PyOutOfRange.

(** The loop [py_input[i] = ( *input)[i]] for [i < input->size()]: the
    array with its first elements replaced, or [None] when an index is
    past the end of the array ([IndexError]). *)
Fixpoint copy_input (src dst : list dtype) : option (list dtype) :=
  match src, dst with
  | [], _ => Some dst
  | x :: src', _ :: dst' => option_map (cons x) (copy_input src' dst')
  | _ :: _, [] => None
  end.

(** The array argument of the call: [Some None] when [supply_input] is
    false, [None] when copying the input raised. *)
Definition input_arg (pf : PyFunc) : option (option (list dtype)) :=
  if supply_input pf then option_map Some (copy_input (input pf) (py_input pf))
  else Some None.

(** The [catch] branch: [( *output)[i] = bpy::extract<float>(py_output[i])]
    for [i] from [i0], [n] elements. *)
Fixpoint write_items (py_output : PyObj) (i n : nat) (out : list dtype)
  : py_result :=
  match n with
  | O => PyOk out
  | S n' =>
    match extract_item py_output i with
    | Some x => write_items py_output (S i) n' (set_nth out i x)
    | None => PyError out
    end
  end.

(** [PyFunc::operator()] at simulation time [time]. *)
Definition PyFunc_call (pf : PyFunc) (time : dtype) : py_result :=
  match input_arg pf with
  | None => PyError (output pf)
  | Some arg =>
    let py_output := py_fn (if supply_time pf then Some time else None) arg in
    match extract_float py_output with
    | Some f =>
        match output pf with
        | [] => PyOutOfRange
        | _ :: _ => PyOk (set_nth (output pf) 0 (to_dtype f))
        end
    | None => write_items py_output 0 (length (output pf)) (output pf)
    end
  end.

End PyBridge.

Arguments PyFloat {pydouble}.
Arguments PySeq {pydouble}.
Arguments PyOther {pydouble}.
Arguments mkNdarray {pydouble}.
Arguments nd_ndim {pydouble}.
Arguments nd_shape {pydouble}.
Arguments nd_obj {pydouble}.
Arguments SigVector {dtype}.
Arguments SigMatrix {dtype}.
Arguments mkPyFunc {dtype}.
Arguments output {dtype}.
Arguments supply_time {dtype}.
Arguments supply_input {dtype}.
Arguments input {dtype}.
Arguments PyOk {dtype}.
Arguments PyError {dtype}.
Arguments PyOutOfRange {dtype}.
Arguments py_input {dtype}.
Arguments copy_input {dtype}.
Arguments input_arg {dtype}.
Arguments set_nth {dtype}.
Arguments extract_float {pydouble cfloat}.
Arguments extract_item {pydouble cfloat dtype}.
Arguments getitem {pydouble}.
Arguments ndarray_to_vector {pydouble cfloat dtype}.
Arguments ndarray_to_matrix {pydouble cfloat dtype}.
Arguments add_signal {pydouble cfloat dtype}.
Arguments write_items {pydouble cfloat dtype}.
Arguments PyFunc_call {pydouble cfloat dtype}.

End PyBridge.

(** ** The simulator's [reset] *)

Module Simulator.

(** The part of a chunk's state that [reset] is to restore.  Modelled from
    the spec: the chunk's fields are in [simulator.hpp], not among the
    sources; each BaseSignal carries "an initial-value snapshot retained
    for reset", and the communication operators carry [first_call]. *)
Record ChunkState (dtype : Type) := mkChunkState {
  signals : list (nat * list dtype);
  snapshots : list (nat * list dtype);
  time : dtype;
  probe_buffers : list (nat * list (list dtype));
  comm_first_calls : list bool
}.

(** The fields of [MpiSimulator] that its constructor sets, with the
    master chunk and the gathered [probe_data]. *)
Record MpiSimulator (dtype : Type) := mkMpiSimulator {
  num_components : nat;
  dt : dtype;
  master_chunk : ChunkState dtype;
  probe_data : list (nat * list (list dtype))
}.

Arguments mkChunkState {dtype}.
Arguments signals {dtype}.
Arguments snapshots {dtype}.
Arguments time {dtype}.
Arguments probe_buffers {dtype}.
Arguments comm_first_calls {dtype}.
Arguments mkMpiSimulator {dtype}.
Arguments num_components {dtype}.
Arguments dt {dtype}.
Arguments master_chunk {dtype}.
Arguments probe_data {dtype}.

(** [void MpiSimulator::reset()]: its body is only a [// TODO] and three
    comments ("Clear probe data", "Tell master chunk to reset", "Send a
    signal to remote chunks telling them to reset"), so the state is left
    as it is. *)
Definition reset {dtype} (sim : MpiSimulator dtype) : MpiSimulator dtype :=
  sim.

(** What the spec asks of the state after [reset]: every BaseSignal equals
    its snapshot, [time = 0], the probe buffers (and the gathered probe
    data) are empty, and every communication operator is re-armed. *)
Definition reset_post (sim : MpiSimulator Q) : bool :=
  let c := master_chunk sim in
  forallb (fun '(k, v) =>
    match find (fun '(k', _) => k' =? k) (snapshots c) with
    | Some (_, v0) => forallb (fun '(x, y) => Qeq_bool x y) (combine v v0)
                      && (length v =? length v0)
    | None => false
    end) (signals c)
  && Qeq_bool (time c) (0 # 1)
  && forallb (fun '(_, b) => match b with [] => true | _ => false end)
       (probe_buffers c)
  && forallb (fun '(_, b) => match b with [] => true | _ => false end)
       (probe_data sim)
  && forallb id (comm_first_calls c).

(** The spec's example "Reset restores" after [run(1)]: signals [a] (key 0)
    and [b] (key 1) with initial values [[9]] and [[0]], the operators
    [Reset(a, 5)] and [Copy(b, a)] run once with [dt = 0.001]; a probe
    (key 0) of period 1 on [b] and one receive operator past its first
    call complete the state. *)
Definition example_after_run : MpiSimulator Q :=
  mkMpiSimulator 1 (1 # 1000)
    (mkChunkState [(0, [5#1]); (1, [5#1])] [(0, [9#1]); (1, [0#1])]
       (1 # 1000) [(0, [[5#1]])] [false])
    [].

(** The state the spec's example expects after [reset(seed=0)]: [a = [9]],
    [b = [0]], [time = 0], empty probe buffers, the receive re-armed. *)
Definition example_expected : MpiSimulator Q :=
  mkMpiSimulator 1 (1 # 1000)
    (mkChunkState [(0, [9#1]); (1, [0#1])] [(0, [9#1]); (1, [0#1])]
       (0 # 1) [(0, [])] [true])
    [].

End Simulator.

(* ------------------------------------------------------------------ *)
(** ** Draining a link ([MPIRecv::complete]) *)

(** [void MPIRecv::complete()]: [MPI_Wait(&request, &status)] on the
    receive that the last [operator()] call posted; the message lands in
    [buffer] and nothing is copied into the content view.  [None] when the
    wait blocks. *)
Definition MPIRecv_complete {dtype} (op : MPIRecv dtype) (chan : list dtype)
  : option (MPIRecv dtype * list dtype) :=
  match chan with
  | [] => None
  | m :: rest =>
      Some (mkMPIRecv (recv_src op) (recv_tag op) (recv_first_call op) m, rest)
  end.

(** The receiving chunk calling [complete()] on the link's receive. *)
Definition link_complete_recv {dtype} (L : Link.state dtype)
  : option (Link.state dtype) :=
  match MPIRecv_complete (Link.l_recv L) (Link.l_chan L) with
  | None => None
  | Some (op, ch) =>
      Some (Link.mkState (Link.l_send L) op (Link.l_content L) ch
              (Link.l_nsend L) (Link.l_nrecv L))
  end.

(* ------------------------------------------------------------------ *)
(** ** The master's simulator object ([MpiSimulator]) *)

Module SimBuild.
Section SimBuild.

(** Keys ([key_type]) are numbers; matrices and the chunk are opaque. *)
Variables matrix chunk : Type.

(** The master chunk's methods, as [MpiSimulator] calls them. *)
Variable chunk_add_signal : chunk -> nat -> String.string -> matrix -> chunk.
Variable chunk_add_op : chunk -> String.string -> chunk.
Variable chunk_add_probe : chunk -> nat -> nat -> Z -> chunk.
Variable chunk_run_n_steps : chunk -> nat -> chunk.
(** [master_chunk->probe_map] in key order, each probe with what its
    [get_data()] returns. *)
Variable chunk_probe_map : chunk -> list (nat * list matrix).

(** The calls [MpiSimulator] makes on [mpi_interface]. *)
Inductive iface_call :=
| IAddSignal (component : nat) (key : nat) (label : String.string) (data : matrix)
| IAddOp (component : nat) (op_string : String.string)
| IAddProbe (component : nat) (probe_key signal_key : nat) (period : Z)
| IRunNSteps (steps : nat)
| IGatherProbeData
| IFinishSimulation.

(** [mpi_interface.gather_probe_data(probe_data, probe_counts)]: it
    updates [probe_data] in place. *)
Variable iface_gather :
  (nat -> option (list matrix)) -> (nat -> nat) -> (nat -> option (list matrix)).
(** [mpi_interface] holds the master chunk it was given by
    [initialize_chunks]: what its [run_n_steps(steps)] does to that chunk. *)
Variable iface_run_n_steps : chunk -> nat -> chunk.

(** The fields of [MpiSimulator]: [probe_counts] and [probe_data] are
    [std::map]s; [probe_data k = None] when [k] has no entry. *)
Record MpiSimulator := mkMpiSimulator {
  num_components : nat;
  master_chunk : chunk;
  iface_log : list iface_call;
  probe_counts : nat -> nat;
  probe_data : nat -> option (list matrix)
}.

(** [MpiSimulator::add_signal]. *)
Definition add_signal (sim : MpiSimulator) (component key : nat)
    (label : String.string) (data : matrix) : MpiSimulator :=
  if component =? 0 then
    mkMpiSimulator (num_components sim)
      (chunk_add_signal (master_chunk sim) key label data)
      (iface_log sim) (probe_counts sim) (probe_data sim)
  else
    mkMpiSimulator (num_components sim) (master_chunk sim)
      (iface_log sim ++ [IAddSignal component key label data])
      (probe_counts sim) (probe_data sim).

(** [MpiSimulator::add_op]. *)
Definition add_op (sim : MpiSimulator) (component : nat)
    (op_string : String.string) : MpiSimulator :=
  if component =? 0 then
    mkMpiSimulator (num_components sim)
      (chunk_add_op (master_chunk sim) op_string)
      (iface_log sim) (probe_counts sim) (probe_data sim)
  else
    mkMpiSimulator (num_components sim) (master_chunk sim)
      (iface_log sim ++ [IAddOp component op_string])
      (probe_counts sim) (probe_data sim).

(** [MpiSimulator::add_probe]: routed like the others, then
    [probe_counts[component] += 1] and
    [probe_data[probe_key] = vector<Matrix*>()]. *)
Definition add_probe (sim : MpiSimulator) (component probe_key signal_key : nat)
    (period : Z) : MpiSimulator :=
  let '(master, log) :=
    if component =? 0 then
      (chunk_add_probe (master_chunk sim) probe_key signal_key period,
       iface_log sim)
    else
      (master_chunk sim,
       iface_log sim ++ [IAddProbe component probe_key signal_key period]) in
  mkMpiSimulator (num_components sim) master log
    (Net.upd Nat.eqb (probe_counts sim) component
       (S (probe_counts sim component)))
    (Net.upd Nat.eqb (probe_data sim) probe_key (Some [])).

(** The loop of [run_n_steps] over the master chunk's probes:
    [data = probe_data.at(key)] (which throws [std::out_of_range] when
    [key] has no entry: [None]), the probe's new data appended, and the
    result stored back at [key]. *)
Fixpoint gather_master (pm : list (nat * list matrix))
    (pd : nat -> option (list matrix)) : option (nat -> option (list matrix)) :=
  match pm with
  | [] => Some pd
  | (k, new_data) :: pm' =>
      match pd k with
      | None => None
      | Some data => gather_master pm' (Net.upd Nat.eqb pd k (Some (data ++ new_data)))
      end
  end.

(** [MpiSimulator::run_n_steps]; [None] when it throws.  The new data of
    the master's probes is read with [chunk_probe_map]; [Probe::get_data],
    which the source calls on each probe, is not in this code, and whatever
    it does to the chunk is not modelled, so the master chunk kept here
    after the call is not claimed to be the chunk the source holds. *)
Definition run_n_steps (sim : MpiSimulator) (steps : nat) : option MpiSimulator :=
  let '(master, log, pd) :=
    if num_components sim =? 1 then
      (chunk_run_n_steps (master_chunk sim) steps, iface_log sim, probe_data sim)
    else
      (iface_run_n_steps (master_chunk sim) steps,
       iface_log sim ++ [IRunNSteps steps; IGatherProbeData; IFinishSimulation],
       iface_gather (probe_data sim) (probe_counts sim)) in
  match gather_master (chunk_probe_map master) pd with
  | None => None
  | Some pd' => Some (mkMpiSimulator (num_components sim) master log
                        (probe_counts sim) pd')
  end.

(** [MpiSimulator::get_probe_data]: [probe_data.at(probe_key)]. *)
Definition get_probe_data (sim : MpiSimulator) (probe_key : nat)
  : option (list matrix) :=
  probe_data sim probe_key.

(** A build call on the simulator, and a sequence of them. *)
Inductive build_call :=
| BSignal (component key : nat) (label : String.string) (data : matrix)
| BOp (component : nat) (op_string : String.string)
| BProbe (component probe_key signal_key : nat) (period : Z).

Definition apply_call (sim : MpiSimulator) (c : build_call) : MpiSimulator :=
  match c with
  | BSignal comp k l d => add_signal sim comp k l d
  | BOp comp s => add_op sim comp s
  | BProbe comp pk sk p => add_probe sim comp pk sk p
  end.

Definition call_component (c : build_call) : nat :=
  match c with
  | BSignal comp _ _ _ => comp
  | BOp comp _ => comp
  | BProbe comp _ _ _ => comp
  end.

(** What the master chunk does with a call routed to it. *)
Definition apply_master (ch : chunk) (c : build_call) : chunk :=
  match c with
  | BSignal _ k l d => chunk_add_signal ch k l d
  | BOp _ s => chunk_add_op ch s
  | BProbe _ pk sk p => chunk_add_probe ch pk sk p
  end.

(** The interface call a call routed to a worker becomes. *)
Definition to_iface (c : build_call) : iface_call :=
  match c with
  | BSignal comp k l d => IAddSignal comp k l d
  | BOp comp s => IAddOp comp s
  | BProbe comp pk sk p => IAddProbe comp pk sk p
  end.

End SimBuild.

Arguments IAddSignal {matrix}.
Arguments IAddOp {matrix}.
Arguments IAddProbe {matrix}.
Arguments IRunNSteps {matrix}.
Arguments IGatherProbeData {matrix}.
Arguments IFinishSimulation {matrix}.
Arguments mkMpiSimulator {matrix chunk}.
Arguments num_components {matrix chunk}.
Arguments master_chunk {matrix chunk}.
Arguments iface_log {matrix chunk}.
Arguments probe_counts {matrix chunk}.
Arguments probe_data {matrix chunk}.
Arguments add_signal {matrix chunk}.
Arguments add_op {matrix chunk}.
Arguments add_probe {matrix chunk}.
Arguments gather_master {matrix}.
Arguments run_n_steps {matrix chunk}.
Arguments get_probe_data {matrix chunk}.
Arguments BSignal {matrix}.
Arguments BOp {matrix}.
Arguments BProbe {matrix}.
Arguments apply_call {matrix chunk}.
Arguments call_component {matrix}.
Arguments apply_master {matrix chunk}.
Arguments to_iface {matrix}.

End SimBuild.

(* ------------------------------------------------------------------ *)
(** ** The command-line entry points *)

Module MasterStart.

Import Stdlib.Strings.String Stdlib.Strings.Ascii.

(** [s.find_last_of(c)]: the position of the last [c] in [s], [None] for
    [string::npos]. *)
Fixpoint find_last_of (c : ascii) (s : string) : option nat :=
  match s with
  | EmptyString => None
  | String a s' =>
      match find_last_of c s' with
      | Some i => Some (S i)
      | None => if Ascii.eqb a c then Some 0 else None
      end
  end.

(** [s.substr(0, n)], [n = npos] taking the whole string. *)
Definition substr0 (n : option nat) (s : string) : string :=
  match n with
  | None => s
  | Some k => substring 0 k s
  end.

Definition dot : ascii := "."%char.
Definition h5_suffix : string := ".h5".

(** [net_filename.substr(0, net_filename.find_last_of(".")) + ".h5"]. *)
Definition default_log_filename (net_filename : string) : string :=
  append (substr0 (find_last_of dot net_filename) net_filename) h5_suffix.

Section MasterStart.

Variable cfloat : Type.
(** [boost::lexical_cast<float>] and [boost::lexical_cast<unsigned>];
    [None] when they throw [bad_lexical_cast]. *)
Variable lexical_cast_float : string -> option cfloat.
Variable lexical_cast_unsigned : string -> option Z.

(** What [option::Parser] reports about the arguments after the program
    name. *)
Record parsed := mkParsed {
  parse_error : bool;
  opt_help : bool;
  opt_noprog : bool;
  opt_timing : bool;
  opt_merged : bool;
  opt_log : option string;
  opt_seed : option string;
  non_options : list string
}.

Record config := mkConfig {
  net_filename : string;
  sim_length : cfloat;
  show_progress : bool;
  collect_timings : bool;
  mpi_merged : bool;
  log_filename : string;
  seed : Z
}.

(** How [mpi_master_start] ends: [return 0] (after printing the usage when
    [usage]), a thrown exception, or the simulation run with a
    configuration. *)
Inductive outcome :=
| MReturn (usage : bool)
| MThrow
| MRun (cfg : config).

(** [int seed = lexical_cast<unsigned>(...)]: an unsigned value stored in
    a 32-bit [int]. *)
Definition to_int32 (u : Z) : Z :=
  if (u <? 2 ^ 31)%Z then u else (u - 2 ^ 32)%Z.

(** [mpi_master_start(argc, argv)] up to the building of the simulator,
    given [argc] (with the program name) and the parser's report. *)
Definition mpi_master_start (argc : nat) (p : parsed) : outcome :=
  let argc := argc - (if 0 <? argc then 1 else 0) in
  if parse_error p then MReturn false
  else if opt_help p || (argc =? 0) then MReturn true
  else
    match non_options p with
    | [net; s_sim_length] =>
        match lexical_cast_float s_sim_length with
        | None => MThrow
        | Some len =>
            let log :=
              match opt_log p with
              | Some l => l
              | None => default_log_filename net
              end in
            let mk sd := MRun (mkConfig net len (negb (opt_noprog p))
                                 (opt_timing p) (opt_merged p) log sd) in
            match opt_seed p with
            | None => mk 1%Z
            | Some a =>
                match lexical_cast_unsigned a with
                | None => MThrow
                | Some u => mk (to_int32 u)
                end
            end
        end
    | _ => MReturn true
    end.

End MasterStart.

Arguments mkConfig {cfloat}.
Arguments net_filename {cfloat}.
Arguments sim_length {cfloat}.
Arguments log_filename {cfloat}.
Arguments seed {cfloat}.
Arguments show_progress {cfloat}.
Arguments collect_timings {cfloat}.
Arguments mpi_merged {cfloat}.
Arguments MReturn {cfloat}.
Arguments MThrow {cfloat}.
Arguments MRun {cfloat}.
Arguments mpi_master_start {cfloat}.

(** How rank 0 of the stand-alone [main] of the worker source ends: a
    message and [return 0], or the simulator loaded from [argv[1]] and run
    for [lexical_cast<int>(argv[2])] steps; [argv[argc]] is the null
    pointer, shown here as [None]. *)
Inductive main_outcome :=
| NoFile
| NoLength
| RunFile (filename : string) (num_steps_arg : option string).

(** [main] with [argv] (its length is [argc]) on rank 0 without a parent
    communicator. *)
Definition main_rank0 (argv : list string) : main_outcome :=
  let argc := List.length argv in
  if argc <? 1 then NoFile
  else if argc <? 2 then NoLength
  else RunFile (nth 1 argv EmptyString) (nth_error argv 2).

End MasterStart.

(* ------------------------------------------------------------------ *)
(** ** The worker sending its probe data ([start_worker]) *)

Module WorkerProbes.

(** For each probe of [chunk.probe_map] in key order: [send_key], then
    [send_int(probe_data.size())], then one [send_matrix] per sample. *)
Definition probe_messages {key matrix} (pm : list (key * list matrix))
  : list (Worker.msg key matrix) :=
  flat_map (fun '(k, data) =>
    Worker.MKey k :: Worker.MInt (Z.of_nat (length data)) :: map Worker.MMatrix data) pm.

End WorkerProbes.

(* ================================================================== *)
(** * Properties *)

(** ** One link *)

Section LinkProofs.

Variable dtype : Type.
Variable x : nat -> dtype.
Variable c0 : dtype.

(** The state of the link after any schedule: the flags are cleared by the
    first call, the channel holds the sends not yet consumed by a wait,
    and the content view holds the message of two receiver steps ago. *)
Definition link_inv (L : Link.state dtype) : Prop :=
  send_first_call (Link.l_send L) = (Link.l_nsend L =? 0) /\
  recv_first_call (Link.l_recv L) = (Link.l_nrecv L =? 0) /\
  pred (Link.l_nrecv L) <= Link.l_nsend L /\
  Link.l_chan L = map x (seq (pred (Link.l_nrecv L))
                             (Link.l_nsend L - pred (Link.l_nrecv L))) /\
  Link.l_content L = (if Link.l_nrecv L <=? 1 then c0
                      else x (Link.l_nrecv L - 2)).

Lemma link_inv_init src dst tag b0 : link_inv (Link.init src dst tag b0 c0).
Proof. repeat split; simpl; lia. Qed.

Lemma link_inv_step e L L' :
  link_inv L -> Link.step x e L = Some L' -> link_inv L'.
Proof.
  destruct L as [snd rcv c ch ns nr]; unfold link_inv; simpl.
  intros (Hs & Hr & Hle & Hch & Hc) Hstep.
  destruct e; simpl in Hstep.
  - injection Hstep as <-; simpl.
    refine (conj eq_refl (conj Hr (conj _ (conj _ Hc)))); [lia|].
    replace (seq _ _) with (seq (pred nr) (S (ns - pred nr)))
      by (f_equal; destruct (pred nr); lia).
    rewrite seq_S, map_app, Hch. simpl. do 3 f_equal. lia.
  - unfold MPIRecv_call in Hstep. rewrite Hr in Hstep.
    destruct nr as [|nr]; simpl in *.
    + injection Hstep as <-; simpl.
      refine (conj Hs (conj eq_refl (conj Hle (conj Hch Hc)))).
    + rewrite Hch in Hstep.
      destruct (ns - nr) as [|k] eqn:Hk; simpl in Hstep; [discriminate|].
      injection Hstep as <-; simpl.
      refine (conj Hs (conj eq_refl (conj _ (conj _ _)))); [lia| |].
      * replace (ns - S nr) with k by lia. reflexivity.
      * destruct nr; simpl; [reflexivity|]. f_equal; lia.
Qed.

Lemma link_inv_exec sch L L' :
  link_inv L -> Link.exec x sch L = Some L' -> link_inv L'.
Proof.
  revert L; induction sch as [|e sch IH]; simpl; intros L HL Hex.
  - injection Hex as <-; exact HL.
  - destruct (Link.step x e L) as [L1|] eqn:Hs; [|discriminate].
    exact (IH L1 (link_inv_step e L L1 HL Hs) Hex).
Qed.

End LinkProofs.

(** Whether a step completes, and the counters it reaches, do not depend on
    the values sent. *)
Lemma link_step_values dtype (x x' : nat -> dtype) c0 e L L' L1 :
  link_inv dtype x c0 L -> link_inv dtype x' c0 L' ->
  Link.l_nsend L' = Link.l_nsend L -> Link.l_nrecv L' = Link.l_nrecv L ->
  Link.step x e L = Some L1 ->
  exists L1', Link.step x' e L' = Some L1' /\
              Link.l_nsend L1' = Link.l_nsend L1 /\
              Link.l_nrecv L1' = Link.l_nrecv L1.
Proof.
  destruct L as [s r c ch ns nr], L' as [s' r' c' ch' ns' nr'].
  unfold link_inv; simpl.
  intros (_ & Hr & _ & Hch & _) (_ & Hr' & _ & Hch' & _) -> -> Hst.
  destruct e; simpl in Hst |- *.
  - injection Hst as <-. eauto.
  - unfold MPIRecv_call in Hst |- *. rewrite Hr in Hst. rewrite Hr'.
    destruct nr as [|nr]; simpl in *.
    + injection Hst as <-. eauto.
    + rewrite Hch in Hst. rewrite Hch'.
      destruct (ns - nr); simpl in Hst |- *; [discriminate|].
      injection Hst as <-. eauto.
Qed.

Lemma link_exec_values dtype (x x' : nat -> dtype) c0 sch L L' L1 :
  link_inv dtype x c0 L -> link_inv dtype x' c0 L' ->
  Link.l_nsend L' = Link.l_nsend L -> Link.l_nrecv L' = Link.l_nrecv L ->
  Link.exec x sch L = Some L1 ->
  exists L1', Link.exec x' sch L' = Some L1' /\
              Link.l_nsend L1' = Link.l_nsend L1 /\
              Link.l_nrecv L1' = Link.l_nrecv L1.
Proof.
  revert L L'; induction sch as [|e sch IH]; simpl; intros L L' H H' Hns Hnr Hex.
  - injection Hex as <-. eauto.
  - destruct (Link.step x e L) as [L2|] eqn:Hs; [|discriminate].
    destruct (link_step_values dtype x x' c0 e L L' L2 H H' Hns Hnr Hs)
      as (L2' & Hs' & Hns2 & Hnr2).
    rewrite Hs'.
    exact (IH L2 L2' (link_inv_step dtype x c0 e L L2 H Hs)
              (link_inv_step dtype x' c0 e L' L2' H' Hs') Hns2 Hnr2 Hex).
Qed.

(** Claim C1.  For a matched [MPISend]/[MPIRecv] pair, each operator called
    once per step of its chunk, in any interleaving of the two chunks:
    right after the receive's step [s] (s >= 1), the receive's content view
    holds the value the sender's content view had at the sender's step
    [s - 1]; and it does not depend on what the sender's view holds at
    step [s] or later (a value written in step [s] is readable only from
    step [s + 1] on). *)
Theorem mpi_link_one_step_latency dtype (x : nat -> dtype) c0 src dst tag b0
    sch L s :
  Link.exec x sch (Link.init src dst tag b0 c0) = Some L ->
  Link.l_nrecv L = S s -> 1 <= s ->
  Link.l_content L = x (s - 1) /\
  (forall x' : nat -> dtype, (forall k, k < s -> x' k = x k) ->
     exists L', Link.exec x' sch (Link.init src dst tag b0 c0) = Some L' /\
                Link.l_nrecv L' = S s /\
                Link.l_content L' = Link.l_content L).
Proof.
  intros Hex Hnr Hs.
  assert (Hcontent : forall (y : nat -> dtype) L0,
             Link.exec y sch (Link.init src dst tag b0 c0) = Some L0 ->
             Link.l_nrecv L0 = S s -> Link.l_content L0 = y (s - 1)).
  { intros y L0 Hex0 Hnr0.
    destruct (link_inv_exec dtype y c0 sch _ L0
                (link_inv_init dtype y c0 src dst tag b0) Hex0)
      as (_ & _ & _ & _ & Hc).
    rewrite Hc, Hnr0.
    destruct s as [|s']; [lia|].
    simpl. destruct s'; simpl; f_equal; lia. }
  split.
  - exact (Hcontent x L Hex Hnr).
  - intros x' Hagree.
    destruct (link_exec_values dtype x x' c0 sch _ _ L
                (link_inv_init dtype x c0 src dst tag b0)
                (link_inv_init dtype x' c0 src dst tag b0)
                eq_refl eq_refl Hex) as (L' & Hex' & _ & Hnr').
    rewrite Hnr in Hnr'.
    exists L'. split; [exact Hex'|]. split; [exact Hnr'|].
    rewrite (Hcontent x' L' Hex' Hnr'), (Hcontent x L Hex Hnr).
    apply Hagree. lia.
Qed.

Lemma mpi_link_one_step_latency_witness :
  exists L,
    Link.exec (fun k => Z.of_nat k)
      [Link.EvSend; Link.EvRecv; Link.EvSend; Link.EvRecv]
      (Link.init 0 1 7 0%Z 100%Z) = Some L /\
    Link.l_nrecv L = 2 /\ 1 <= 1 /\
    Link.l_content L = 0%Z /\
    (forall x' : nat -> Z, (forall k, k < 1 -> x' k = Z.of_nat k) ->
       exists L', Link.exec x'
                    [Link.EvSend; Link.EvRecv; Link.EvSend; Link.EvRecv]
                    (Link.init 0 1 7 0%Z 100%Z) = Some L' /\
                  Link.l_nrecv L' = 2 /\
                  Link.l_content L' = Link.l_content L).
Proof.
  eexists. split; [reflexivity|]. split; [reflexivity|]. split; [lia|].
  apply (mpi_link_one_step_latency Z (fun k => Z.of_nat k) 100%Z 0 1 7 0%Z
           [Link.EvSend; Link.EvRecv; Link.EvSend; Link.EvRecv] _ 1);
    [reflexivity | reflexivity | lia].
Defined.

(** Claim C7.  A receive operator whose [first_call] flag is set (as built)
    neither waits (it never blocks and leaves the channel alone) nor copies
    into its content view; it only clears the flag.  From the next call on,
    it waits for the message and copies it into the view.  Hence on a link,
    right after the receiver's step 0 the content view still holds its
    initial value, whatever the sender did. *)
Theorem mpi_recv_first_call_no_copy dtype (op : MPIRecv dtype) chan :
  recv_first_call op = true ->
  MPIRecv_call op chan =
    Some (mkMPIRecv (recv_src op) (recv_tag op) false (recv_buffer op),
          None, chan) /\
  (forall m rest,
     exists op'', MPIRecv_call
                    (mkMPIRecv (recv_src op) (recv_tag op) false (recv_buffer op))
                    (m :: rest) = Some (op'', Some m, rest)) /\
  MPIRecv_call (mkMPIRecv (recv_src op) (recv_tag op) false (recv_buffer op))
    [] = None /\
  (forall (x : nat -> dtype) c0 src dst tag b0 sch L,
     Link.exec x sch (Link.init src dst tag b0 c0) = Some L ->
     Link.l_nrecv L = 1 -> Link.l_content L = c0).
Proof.
  intros Hfirst. split; [|split; [|split]].
  - unfold MPIRecv_call. rewrite Hfirst. reflexivity.
  - intros m rest. eexists. reflexivity.
  - reflexivity.
  - intros x c0 src dst tag b0 sch L Hex Hnr.
    destruct (link_inv_exec dtype x c0 sch _ L
                (link_inv_init dtype x c0 src dst tag b0) Hex)
      as (_ & _ & _ & _ & Hc).
    rewrite Hc, Hnr. reflexivity.
Qed.

Lemma mpi_recv_first_call_no_copy_witness :
  recv_first_call (mkMPIRecv 1 7 true 0%Z) = true /\
  MPIRecv_call (mkMPIRecv 1 7 true 0%Z) [5%Z] =
    Some (mkMPIRecv 1 7 false 0%Z, None, [5%Z]).
Proof.
  split; [reflexivity|].
  apply (mpi_recv_first_call_no_copy Z (mkMPIRecv 1 7 true 0%Z) [5%Z]).
  reflexivity.
Defined.

(** ** Several chunks *)

Section UpdLemmas.

Context {A B : Type} (eqb : A -> A -> bool)
        (eqb_spec : forall a a', eqb a a' = true <-> a = a').

Lemma upd_same (f : A -> B) a b : Net.upd eqb f a b a = b.
Proof.
  unfold Net.upd. destruct (eqb a a) eqn:E; [reflexivity|].
  assert (eqb a a = true) by (apply eqb_spec; reflexivity). congruence.
Qed.

Lemma upd_other (f : A -> B) a a' b : a' <> a -> Net.upd eqb f a b a' = f a'.
Proof.
  intros Hne. unfold Net.upd. destruct (eqb a' a) eqn:E; [|reflexivity].
  apply eqb_spec in E. contradiction.
Qed.

Lemma upd_upd (f : A -> B) a b1 b2 :
  Net.upd eqb (Net.upd eqb f a b1) a b2 = Net.upd eqb f a b2.
Proof.
  apply functional_extensionality. intros a'. unfold Net.upd.
  destruct (eqb a' a); reflexivity.
Qed.

Lemma upd_comm (f : A -> B) a1 a2 b1 b2 : a1 <> a2 ->
  Net.upd eqb (Net.upd eqb f a1 b1) a2 b2 =
  Net.upd eqb (Net.upd eqb f a2 b2) a1 b1.
Proof.
  intros Hne. apply functional_extensionality. intros a'. unfold Net.upd.
  destruct (eqb a' a2) eqn:E2, (eqb a' a1) eqn:E1; try reflexivity.
  apply eqb_spec in E1, E2. subst. contradiction.
Qed.

End UpdLemmas.

Lemma key_eqb_spec k k' : Net.key_eqb k k' = true <-> k = k'.
Proof.
  destruct k as [[a b] c], k' as [[a' b'] c']; simpl.
  rewrite !andb_true_iff, !Nat.eqb_eq. split.
  - intros [[-> ->] ->]. reflexivity.
  - intros H. injection H as -> -> ->. auto.
Qed.

Section NetProofs.

Variable LS : Type.
Variable dtype : Type.
Variable prog : nat -> list (Net.op LS dtype).
Variable end_step : LS -> LS.

Abbreviation proc_step := (Net.proc_step prog end_step).
Abbreviation step := (Net.step prog end_step).
Abbreviation exec := (Net.exec prog end_step).
Abbreviation op_chan := (Net.op_chan prog).

(** What the next operator of a chunk does to the queue of its channel:
    nothing (a local operator or a first receive), append one message
    (a send), or take the head message (a later receive). *)
Lemma proc_step_cases i p :
  (forall q, proc_step i p q = None) \/
  (exists p', forall q, proc_step i p q = Some (p', q)) \/
  (exists p' v dst tag, op_chan i p = (i, dst, tag) /\
     forall q, proc_step i p q = Some (p', q ++ [v])) \/
  (exists f src tag, op_chan i p = (src, i, tag) /\
     forall q, proc_step i p q =
               match q with [] => None | m :: r => Some (f m, r) end).
Proof.
  unfold Net.proc_step, Net.op_chan.
  destruct (nth_error (prog i) (Net.p_pc p)) as [o|]; [|left; auto].
  destruct o as [f|dst tag rd|src tag wr].
  - right; left. eauto.
  - right; right; left. do 4 eexists. split; [reflexivity|]. intros q.
    reflexivity.
  - unfold MPIRecv_call.
    destruct (recv_first_call (Net.p_recvs p (Net.p_pc p))).
    + right; left. eauto.
    + right; right; right. do 3 eexists. split; [reflexivity|].
      intros [|m r]; reflexivity.
Qed.

(** Two chunks sharing a channel: the sender's append and the receiver's
    wait commute. *)
Lemma proc_step_queue_comm i j pi pj q pi' qi pj' qj :
  i <> j -> op_chan i pi = op_chan j pj ->
  proc_step i pi q = Some (pi', qi) -> proc_step j pj q = Some (pj', qj) ->
  exists q', proc_step j pj qi = Some (pj', q') /\
             proc_step i pi qj = Some (pi', q').
Proof.
  intros Hij Hk Hi Hj.
  destruct (proc_step_cases i pi)
    as [Ci|[(a & Ci)|[(a & v & d & t & Ki & Ci)|(f & s & t & Ki & Ci)]]];
  destruct (proc_step_cases j pj)
    as [Cj|[(b & Cj)|[(b & w & d' & t' & Kj & Cj)|(h & s' & t' & Kj & Cj)]]];
  rewrite ?Ci in Hi |- *; rewrite ?Cj in Hj |- *; try discriminate.
  - injection Hi as <- <-. injection Hj as <- <-. eauto.
  - injection Hi as <- <-. injection Hj as <- <-. eauto.
  - injection Hi as <- <-. destruct q as [|m r]; [discriminate|].
    injection Hj as <- <-. eauto.
  - injection Hi as <- <-. injection Hj as <- <-. eauto.
  - rewrite Ki, Kj in Hk. injection Hk as E _ _. contradiction.
  - injection Hi as <- <-. destruct q as [|m r]; [discriminate|].
    injection Hj as <- <-. eexists. split; reflexivity.
  - destruct q as [|m r]; [discriminate|].
    injection Hi as <- <-. injection Hj as <- <-. eauto.
  - destruct q as [|m r]; [discriminate|].
    injection Hi as <- <-. injection Hj as <- <-.
    eexists. split; reflexivity.
  - rewrite Ki, Kj in Hk. injection Hk as _ E _. contradiction.
Qed.

(** Diamond: steps of two different chunks commute. *)
Lemma step_diamond i j g gi gj :
  i <> j -> step i g = Some gi -> step j g = Some gj ->
  exists h, step j gi = Some h /\ step i gj = Some h.
Proof.
  intros Hij. unfold Net.step.
  set (pi := Net.procs g i). set (pj := Net.procs g j).
  set (ki := op_chan i pi). set (kj := op_chan j pj).
  destruct (proc_step i pi (Net.chans g ki)) as [[pi' qi]|] eqn:Hi;
    [|discriminate].
  destruct (proc_step j pj (Net.chans g kj)) as [[pj' qj]|] eqn:Hj;
    [|discriminate].
  intros Egi Egj. injection Egi as <-. injection Egj as <-. simpl.
  rewrite (upd_other Nat.eqb Nat.eqb_eq _ i j) by congruence.
  rewrite (upd_other Nat.eqb Nat.eqb_eq _ j i) by congruence.
  fold pi pj. fold ki kj.
  destruct (Net.key_eqb kj ki) eqn:Ek.
  - apply key_eqb_spec in Ek. rewrite Ek in *.
    rewrite !(upd_same Net.key_eqb key_eqb_spec).
    destruct (proc_step_queue_comm i j pi pj _ pi' qi pj' qj Hij
                (eq_sym Ek) Hi Hj) as (q' & Hj' & Hi').
    rewrite Hj', Hi'. eexists. split; [reflexivity|].
    rewrite !(upd_upd Net.key_eqb).
    rewrite (upd_comm Nat.eqb Nat.eqb_eq _ i j) by exact Hij.
    reflexivity.
  - assert (Hne : kj <> ki).
    { intros E. apply key_eqb_spec in E. congruence. }
    rewrite (upd_other Net.key_eqb key_eqb_spec _ ki kj) by exact Hne.
    rewrite (upd_other Net.key_eqb key_eqb_spec _ kj ki) by congruence.
    rewrite Hj, Hi. eexists. split; [reflexivity|].
    rewrite (upd_comm Nat.eqb Nat.eqb_eq _ i j) by exact Hij.
    rewrite (upd_comm Net.key_eqb key_eqb_spec _ ki kj) by congruence.
    reflexivity.
Qed.

(** Moving a step of chunk [i] to the front of a schedule, past steps of
    other chunks. *)
Lemma exec_move_front i p q g g' g2 :
  ~ In i p -> step i g = Some g' -> exec (p ++ i :: q) g = Some g2 ->
  exec (p ++ q) g' = Some g2.
Proof.
  revert g g'; induction p as [|j p IH]; simpl; intros g g' Hin Hi Hex.
  - rewrite Hi in Hex. exact Hex.
  - destruct (step j g) as [gj|] eqn:Hj; [|discriminate].
    assert (Hij : i <> j) by (intros ->; apply Hin; left; reflexivity).
    destruct (step_diamond i j g g' gj Hij Hi Hj) as (h & Hj' & Hi').
    rewrite Hj'.
    exact (IH gj h (fun H => Hin (or_intror H)) Hi' Hex).
Qed.

End NetProofs.

Lemma in_split_first (i : nat) l :
  In i l -> exists p q, l = p ++ i :: q /\ ~ In i p.
Proof.
  induction l as [|j l IH]; simpl; [contradiction|].
  intros H. destruct (Nat.eq_dec j i) as [->|Hne].
  - exists [], l. split; [reflexivity|]. simpl. tauto.
  - destruct H as [H|H]; [contradiction|].
    destruct (IH H) as (p & q & -> & Hp).
    exists (j :: p), q. split; [reflexivity|].
    simpl. intros [E|E]; [congruence|contradiction].
Qed.

(** Claim C4.  Running the same built network (same operator lists, same
    initial state, which is where the seed enters) twice yields the same
    final state of every chunk, hence bit-identical probe buffers, however
    the message passing interleaves the chunks: any two schedules that
    complete and run each chunk for the same number of operator calls
    reach the same network state. *)
Theorem run_deterministic LS dtype (prog : nat -> list (Net.op LS dtype))
    (end_step : LS -> LS) sch1 sch2 g g1 g2 :
  Net.exec prog end_step sch1 g = Some g1 ->
  Net.exec prog end_step sch2 g = Some g2 ->
  (forall i, count_occ Nat.eq_dec sch1 i = count_occ Nat.eq_dec sch2 i) ->
  g1 = g2.
Proof.
  revert sch2 g; induction sch1 as [|i sch1 IH]; intros sch2 g Hex1 Hex2 Hcnt.
  - simpl in Hex1. injection Hex1 as <-.
    destruct sch2 as [|j sch2].
    + simpl in Hex2. congruence.
    + specialize (Hcnt j). simpl in Hcnt.
      destruct (Nat.eq_dec j j); [discriminate|contradiction].
  - simpl in Hex1.
    destruct (Net.step prog end_step i g) as [g'|] eqn:Hi; [|discriminate].
    assert (Hin : In i sch2).
    { apply (count_occ_In Nat.eq_dec). rewrite <- Hcnt. simpl.
      destruct (Nat.eq_dec i i); [lia|contradiction]. }
    destruct (in_split_first i sch2 Hin) as (p & q & -> & Hp).
    apply (IH (p ++ q) g'); [exact Hex1| |].
    + exact (exec_move_front LS dtype prog end_step i p q g g' g2 Hp Hi Hex2).
    + intros k. specialize (Hcnt k).
      rewrite count_occ_app in Hcnt |- *. simpl in Hcnt |- *.
      destruct (Nat.eq_dec i k) as [->|Hne].
      * destruct (Nat.eq_dec k k); [lia|contradiction].
      * destruct (Nat.eq_dec k i); [congruence|lia].
Qed.

Lemma run_deterministic_witness :
  match Net.exec RingExample.prog RingExample.sample_y RingExample.sched0
          RingExample.init,
        Net.exec RingExample.prog RingExample.sample_y RingExample.sched1
          RingExample.init with
  | Some g1, Some g2 => g1 = g2
  | _, _ => False
  end.
Proof.
  assert (Hc : forall i, count_occ Nat.eq_dec RingExample.sched0 i =
                         count_occ Nat.eq_dec RingExample.sched1 i).
  { intros [|[|i]]; reflexivity. }
  assert (H0 : match Net.exec RingExample.prog RingExample.sample_y
                       RingExample.sched0 RingExample.init with
               | Some _ => true | None => false end = true)
    by (vm_compute; reflexivity).
  assert (H1 : match Net.exec RingExample.prog RingExample.sample_y
                       RingExample.sched1 RingExample.init with
               | Some _ => true | None => false end = true)
    by (vm_compute; reflexivity).
  destruct (Net.exec RingExample.prog RingExample.sample_y RingExample.sched0
              RingExample.init) as [g1|] eqn:E1;
    [|discriminate H0].
  destruct (Net.exec RingExample.prog RingExample.sample_y RingExample.sched1
              RingExample.init) as [g2|] eqn:E2;
    [|discriminate H1].
  exact (run_deterministic _ _ RingExample.prog RingExample.sample_y
           RingExample.sched0 RingExample.sched1 RingExample.init g1 g2
           E1 E2 Hc).
Defined.

(** ** Counting multiples *)

Lemma count_multiples (p n : nat) : 0 < p ->
  length (filter (fun k => k mod p =? 0) (seq 0 n)) = (n + p - 1) / p.
Proof.
  intros Hp. induction n as [|n IH].
  - simpl. symmetry. apply Nat.div_small. lia.
  - rewrite seq_S, filter_app, length_app, IH.
    replace (S n + p - 1) with (n + p) by lia. simpl.
    pose proof (Nat.div_mod n p ltac:(lia)) as Hdm.
    pose proof (Nat.mod_upper_bound n p ltac:(lia)) as Hr.
    set (q := n / p) in *. set (r := n mod p) in *.
    destruct (r =? 0) eqn:Er; simpl.
    + apply Nat.eqb_eq in Er.
      rewrite <- (Nat.div_unique (n + p - 1) p q (p - 1)) by lia.
      rewrite <- (Nat.div_unique (n + p) p (S q) 0) by lia.
      lia.
    + apply Nat.eqb_neq in Er.
      rewrite <- (Nat.div_unique (n + p - 1) p (S q) (r - 1)) by lia.
      rewrite <- (Nat.div_unique (n + p) p (S q) r) by lia.
      lia.
Qed.

(** ** The barrier *)

Lemma barrier_trace_seq P a n :
  barrier_trace P (mkMPIBarrier a) n =
  map (fun k => negb (k =? 0) && (k mod P =? 0)) (seq a n).
Proof.
  revert a; induction n as [|n IH]; intros a; simpl; [reflexivity|].
  rewrite IH. reflexivity.
Qed.

(** Claim C5, as stated: the first [BARRIER_PERIOD] calls of a fresh
    barrier (period 1000) perform no barrier at all. *)
Lemma mpi_barrier_first_period_no_barrier :
  length (filter (fun did => did)
            (barrier_trace 1000 MPIBarrier_init 1000)) = 0.
Proof. vm_compute. reflexivity. Qed.

(** Claim C5, amended.  Each call advances the step counter by one and does
    nothing else, except that it performs the barrier exactly when the
    counter (the number of earlier calls) is a nonzero multiple of
    [BARRIER_PERIOD]: none in the first [BARRIER_PERIOD] calls of a fresh
    operator, and exactly one in every later run of [BARRIER_PERIOD]
    consecutive calls. *)
Theorem mpi_barrier_period P :
  0 < P ->
  (forall b, fst (MPIBarrier_call P b) = mkMPIBarrier (S (barrier_step b))) /\
  (forall b, snd (MPIBarrier_call P b) = true <->
             barrier_step b <> 0 /\ barrier_step b mod P = 0) /\
  length (filter (fun did => did) (barrier_trace P MPIBarrier_init P)) = 0 /\
  (forall a, 1 <= a ->
     length (filter (fun did => did) (barrier_trace P (mkMPIBarrier a) P)) = 1).
Proof.
  intros HP. split; [|split; [|split]].
  - intros b. reflexivity.
  - intros b. unfold MPIBarrier_call; simpl.
    rewrite andb_true_iff, negb_true_iff, Nat.eqb_neq, Nat.eqb_eq. tauto.
  - unfold MPIBarrier_init.
    rewrite barrier_trace_seq, filter_map_swap, length_map.
    rewrite (filter_ext_in _ (fun _ => false)).
    + rewrite filter_false. reflexivity.
    + intros k Hk. apply in_seq in Hk.
      destruct k as [|k]; [reflexivity|].
      rewrite Nat.mod_small by lia. reflexivity.
  - intros a Ha. rewrite barrier_trace_seq, filter_map_swap, length_map.
    rewrite (filter_ext_in _ (fun k => k mod P =? 0)).
    2:{ intros k Hk. apply in_seq in Hk.
        destruct k; [lia|]. reflexivity. }
    pose proof (count_multiples P (a + P) HP) as Hall.
    pose proof (count_multiples P a HP) as Hpre.
    rewrite (seq_app a P 0), filter_app, length_app in Hall. simpl in Hall.
    replace (a + P + P - 1) with ((a + P - 1) + 1 * P) in Hall by lia.
    rewrite Nat.div_add in Hall by lia.
    lia.
Qed.

Lemma mpi_barrier_period_witness :
  0 < 1000 /\
  length (filter (fun did => did) (barrier_trace 1000 (mkMPIBarrier 1) 1000)) = 1.
Proof.
  split; [lia|].
  apply (mpi_barrier_period 1000); lia.
Defined.

(** ** Probes *)

Lemma probe_run_buffer V (pr : ProbeModel.Probe V) target start n :
  ProbeModel.run_n_steps pr target start n =
  ProbeModel.mkProbe (ProbeModel.period pr)
    (ProbeModel.buffer pr ++
     map target (filter (fun s => s mod ProbeModel.period pr =? 0)
                        (seq start n))).
Proof.
  induction n as [|n IH].
  - unfold ProbeModel.run_n_steps; simpl.
    destruct pr; simpl. rewrite app_nil_r. reflexivity.
  - unfold ProbeModel.run_n_steps in *.
    rewrite seq_S, fold_left_app, IH. simpl.
    rewrite filter_app, map_app. simpl.
    unfold ProbeModel.sample; simpl.
    destruct ((start + n) mod ProbeModel.period pr =? 0); simpl.
    + rewrite app_assoc. reflexivity.
    + rewrite app_nil_r. reflexivity.
Qed.

(** Claim C8.  A probe with period [p >= 1], empty when the run starts
    (fresh chunk: step counter 0), samples the probed view exactly at the
    steps [s < n] with [s mod p = 0], and so holds ceil(n/p) samples,
    i.e. [(n + p - 1) / p], after [n] steps. *)
Theorem probe_samples_count V p (target : nat -> V) n :
  1 <= p ->
  ProbeModel.buffer (ProbeModel.run_n_steps (ProbeModel.mkProbe p []) target 0 n)
    = map target (filter (fun s => s mod p =? 0) (seq 0 n)) /\
  length (ProbeModel.buffer
            (ProbeModel.run_n_steps (ProbeModel.mkProbe p []) target 0 n))
    = (n + p - 1) / p.
Proof.
  intros Hp. rewrite probe_run_buffer. simpl. split; [reflexivity|].
  rewrite length_map. apply count_multiples. lia.
Qed.

Lemma probe_samples_count_witness :
  1 <= 3 /\
  ProbeModel.buffer
    (ProbeModel.run_n_steps (ProbeModel.mkProbe 3 []) (fun s => s) 0 7)
    = [0; 3; 6] /\
  length (ProbeModel.buffer
    (ProbeModel.run_n_steps (ProbeModel.mkProbe 3 []) (fun s => s) 0 7)) = 3.
Proof.
  split; [lia|].
  apply (probe_samples_count nat 3 (fun s => s) 7). lia.
Defined.

(** ** Operator order *)

Section ScheduleProofs.

Import Schedule.

Variable A : Type.

Definition idx_le (o o' : Operator A) : Prop := (get_index o <= get_index o')%Q.

Lemma compare_op_ptr_true (o o' : Operator A) :
  compare_op_ptr o o' = true <-> (get_index o < get_index o')%Q.
Proof.
  unfold compare_op_ptr, Qlt_bool. rewrite negb_true_iff.
  split.
  - intros H. apply Qnot_le_lt. intros Hle.
    apply Qle_bool_iff in Hle. congruence.
  - intros H. destruct (Qle_bool (get_index o') (get_index o)) eqn:E;
      [|reflexivity].
    apply Qle_bool_iff in E. exfalso. apply (Qlt_not_le _ _ H E).
Qed.

Lemma compare_op_ptr_false (o o' : Operator A) :
  compare_op_ptr o o' = false -> idx_le o' o.
Proof.
  unfold compare_op_ptr, Qlt_bool, idx_le. intros H.
  apply negb_false_iff, Qle_bool_iff in H. exact H.
Qed.

Lemma insert_op_sorted o l :
  Sorted idx_le l -> Sorted idx_le (insert_op (@compare_op_ptr A) o l).
Proof.
  induction l as [|o' l IH]; simpl; intros Hs.
  - constructor; constructor.
  - destruct (compare_op_ptr o o') eqn:E.
    + constructor; [exact Hs|]. constructor.
      apply Qlt_le_weak, compare_op_ptr_true, E.
    + apply compare_op_ptr_false in E.
      inversion Hs as [|x y Hl Hhd]; subst.
      constructor; [exact (IH Hl)|].
      destruct l as [|o'' l]; simpl.
      * constructor. exact E.
      * inversion Hhd; subst.
        destruct (compare_op_ptr o o''); constructor; assumption.
Qed.

Lemma insert_op_perm o l :
  Permutation (insert_op (@compare_op_ptr A) o l) (o :: l).
Proof.
  induction l as [|o' l IH]; simpl; [reflexivity|].
  destruct (compare_op_ptr o o'); [reflexivity|].
  rewrite IH. apply perm_swap.
Qed.

Lemma stable_sort_perm l acc :
  Permutation (fold_left (fun acc o => insert_op (@compare_op_ptr A) o acc) l acc)
              (acc ++ l).
Proof.
  revert acc; induction l as [|o l IH]; intros acc; simpl.
  - rewrite app_nil_r. reflexivity.
  - rewrite IH, insert_op_perm. simpl. apply Permutation_middle.
Qed.

Lemma stable_sort_sorted l acc :
  Sorted idx_le acc ->
  Sorted idx_le (fold_left (fun acc o => insert_op (@compare_op_ptr A) o acc) l acc).
Proof.
  revert acc; induction l as [|o l IH]; intros acc Hs; simpl; [exact Hs|].
  apply IH, insert_op_sorted, Hs.
Qed.

Definition has_index (q : Q) (o : Operator A) : bool :=
  Qeq_bool (get_index o) q.

(** Inserting into a sorted list puts the operator after every operator
    of the same index. *)
Lemma insert_op_filter q o l :
  Sorted idx_le l ->
  filter (has_index q) (insert_op (@compare_op_ptr A) o l) =
  filter (has_index q) l ++ (if has_index q o then [o] else []).
Proof.
  induction l as [|o' l IH]; intros Hs.
  - simpl. destruct (has_index q o); reflexivity.
  - cbn [insert_op]. destruct (compare_op_ptr o o') eqn:E.
    + apply compare_op_ptr_true in E.
      assert (Hnone : filter (has_index q) (o' :: l) = [] \/
                      has_index q o = false).
      { destruct (has_index q o) eqn:Ho; [left|right; reflexivity].
        apply Qeq_bool_iff in Ho.
        apply Sorted_StronglySorted in Hs;
          [|intros a b c; unfold idx_le; apply Qle_trans].
        assert (Hall : forall z, In z (o' :: l) -> has_index q z = false).
        { intros z Hz. unfold has_index.
          destruct (Qeq_bool (get_index z) q) eqn:Ez; [|reflexivity].
          apply Qeq_bool_iff in Ez. exfalso.
          assert (Hle : idx_le o' z).
          { destruct Hz as [<-|Hz]; [apply Qle_refl|].
            inversion Hs; subst.
            eapply Forall_forall; eauto. }
          unfold idx_le in Hle. rewrite Ez, <- Ho in Hle.
          apply (Qlt_not_le _ _ E Hle). }
        apply (filter_ext_in _ (fun _ => false)) in Hall.
        rewrite Hall, filter_false. reflexivity. }
      change (filter (has_index q) (o :: o' :: l)) with
        (if has_index q o then o :: filter (has_index q) (o' :: l)
         else filter (has_index q) (o' :: l)).
      destruct Hnone as [Hn|Hn].
      * rewrite Hn. destruct (has_index q o); reflexivity.
      * rewrite Hn, app_nil_r. reflexivity.
    + simpl. inversion Hs; subst. rewrite (IH ltac:(assumption)).
      destruct (has_index q o'); reflexivity.
Qed.

Lemma stable_sort_filter q l acc :
  Sorted idx_le acc ->
  filter (has_index q)
    (fold_left (fun acc o => insert_op (@compare_op_ptr A) o acc) l acc) =
  filter (has_index q) acc ++ filter (has_index q) l.
Proof.
  revert acc; induction l as [|o l IH]; intros acc Hs; simpl.
  - rewrite app_nil_r. reflexivity.
  - rewrite IH by (apply insert_op_sorted, Hs).
    rewrite insert_op_filter by exact Hs.
    rewrite <- app_assoc. destruct (has_index q o); reflexivity.
Qed.

End ScheduleProofs.

(** Claim C3.  After [finalize_build] the operator list walked by the step
    loop is a reordering of the operators added, sorted by ascending
    index, and the operators of any one index keep their insertion
    order. *)
Theorem finalize_build_sorted_stable A (operator_list : list (Schedule.Operator A)) :
  Sorted (idx_le A) (Schedule.finalize_build operator_list) /\
  Permutation (Schedule.finalize_build operator_list) operator_list /\
  (forall q, filter (has_index A q) (Schedule.finalize_build operator_list) =
             filter (has_index A q) operator_list).
Proof.
  unfold Schedule.finalize_build, Schedule.stable_sort.
  split; [|split].
  - apply stable_sort_sorted. constructor.
  - apply stable_sort_perm.
  - intros q. rewrite stable_sort_filter by constructor. reflexivity.
Qed.

(** ** The worker's build loop *)

Section WorkerProofs.

Import Worker.

Variables key matrix chunk : Type.
Variable add_base_signal : chunk -> key -> String.string -> matrix -> chunk.
Variable add_op : chunk -> String.string -> chunk.
Variable add_probe : chunk -> key -> String.string -> Z -> chunk.

Local Abbreviation loop := (worker_loop add_base_signal add_op add_probe).
Local Abbreviation apply := (apply_record add_base_signal add_op add_probe).

Lemma worker_loop_records (rs : list (record key matrix)) :
  forall fuel ms c, length rs <= fuel ->
  loop fuel (flat_map encode rs ++ ms) c =
  loop (fuel - length rs) ms (fold_left apply rs c).
Proof.
  induction rs as [|r rs IH]; intros fuel ms c Hf; simpl.
  - rewrite Nat.sub_0_r. reflexivity.
  - destruct fuel as [|fuel]; [simpl in Hf; lia|].
    rewrite <- app_assoc.
    destruct r; simpl; rewrite IH by (simpl in Hf; lia); reflexivity.
Qed.

Lemma encode_length_ge (rs : list (record key matrix)) :
  length rs <= length (flat_map encode rs).
Proof.
  induction rs as [|r rs IH]; simpl; [lia|].
  rewrite length_app. destruct r; simpl; lia.
Qed.

Lemma worker_loop_done fuel :
  forall ms c c' rest,
  loop fuel ms c = WDone c' rest ->
  exists rs, ms = flat_map encode rs ++ MInt stop_flag :: rest /\
             c' = fold_left apply rs c.
Proof.
  induction fuel as [|fuel IH]; intros ms c c' rest H; [discriminate H|].
  cbn [worker_loop recv_int] in H.
  destruct ms as [|[z|k|s|m] ms]; try discriminate H.
  cbn [recv_int] in H.
  destruct (z =? add_signal_flag)%Z eqn:E1; try rewrite E1 in H.
  { apply Z.eqb_eq in E1; subst z.
    destruct ms as [|[|k|?|?] ms]; try discriminate H.
    destruct ms as [|[| |s|?] ms]; try discriminate H.
    destruct ms as [|[| | |m] ms]; try discriminate H.
    destruct (IH _ _ _ _ H) as [rs [-> ->]].
    exists (RSignal k s m :: rs). split; reflexivity. }
  destruct (z =? add_op_flag)%Z eqn:E2; try rewrite E2 in H.
  { apply Z.eqb_eq in E2; subst z.
    destruct ms as [|[| |s|?] ms]; try discriminate H.
    destruct (IH _ _ _ _ H) as [rs [-> ->]].
    exists (ROp s :: rs). split; reflexivity. }
  destruct (z =? add_probe_flag)%Z eqn:E3; try rewrite E3 in H.
  { apply Z.eqb_eq in E3; subst z.
    destruct ms as [|[|k|?|?] ms]; try discriminate H.
    destruct ms as [|[| |s|?] ms]; try discriminate H.
    destruct ms as [|[p| | |] ms]; try discriminate H.
    destruct (IH _ _ _ _ H) as [rs [-> ->]].
    exists (RProbe k s p :: rs). split; reflexivity. }
  destruct (z =? stop_flag)%Z eqn:E4; try rewrite E4 in H; [|discriminate H].
  apply Z.eqb_eq in E4; subst z.
  injection H as <- <-. exists []. split; reflexivity.
Qed.

End WorkerProofs.

(** Claim C9.  The worker's build loop reads the master's records one
    after the other and applies each to the chunk; it ends (with the
    records applied and the rest of the stream unread) exactly when a
    [stop] flag is read in flag position, and a flag outside
    {add_signal, add_op, add_probe, stop} ends it with the [runtime_error]
    instead of being skipped. *)
Theorem start_worker_build_loop key matrix chunk
    (add_base_signal : chunk -> key -> String.string -> matrix -> chunk)
    (add_op : chunk -> String.string -> chunk)
    (add_probe : chunk -> key -> String.string -> Z -> chunk) :
  (forall (rs : list (Worker.record key matrix)) rest c,
     Worker.start_worker add_base_signal add_op add_probe
       (flat_map Worker.encode rs ++ Worker.MInt Worker.stop_flag :: rest) c =
     Worker.WDone (fold_left (Worker.apply_record add_base_signal add_op add_probe) rs c)
       rest) /\
  (forall (rs : list (Worker.record key matrix)) f rest c,
     ~ In f [Worker.add_signal_flag; Worker.add_op_flag;
             Worker.add_probe_flag; Worker.stop_flag] ->
     Worker.start_worker add_base_signal add_op add_probe
       (flat_map Worker.encode rs ++ Worker.MInt f :: rest) c =
     Worker.WInvalid (fold_left (Worker.apply_record add_base_signal add_op add_probe) rs c)) /\
  (forall ms c c' rest,
     Worker.start_worker add_base_signal add_op add_probe ms c = Worker.WDone c' rest ->
     exists rs : list (Worker.record key matrix),
       ms = flat_map Worker.encode rs ++ Worker.MInt Worker.stop_flag :: rest /\
       c' = fold_left (Worker.apply_record add_base_signal add_op add_probe) rs c).
Proof.
  unfold Worker.start_worker.
  split; [|split].
  - intros rs rest c.
    pose proof (encode_length_ge key matrix rs) as Hl.
    rewrite worker_loop_records by (rewrite length_app; simpl; lia).
    rewrite length_app. simpl.
    replace (length (flat_map Worker.encode rs) + S (length rest) - length rs)
      with (S (length (flat_map Worker.encode rs) + length rest - length rs))
      by lia.
    reflexivity.
  - intros rs f rest c Hf.
    pose proof (encode_length_ge key matrix rs) as Hl.
    rewrite worker_loop_records by (rewrite length_app; simpl; lia).
    rewrite length_app. simpl.
    replace (length (flat_map Worker.encode rs) + S (length rest) - length rs)
      with (S (length (flat_map Worker.encode rs) + length rest - length rs))
      by lia.
    cbn [Worker.worker_loop Worker.recv_int].
    destruct (f =? Worker.add_signal_flag)%Z eqn:E1;
      [apply Z.eqb_eq in E1; subst; exfalso; apply Hf; simpl; tauto|].
    destruct (f =? Worker.add_op_flag)%Z eqn:E2;
      [apply Z.eqb_eq in E2; subst; exfalso; apply Hf; simpl; tauto|].
    destruct (f =? Worker.add_probe_flag)%Z eqn:E3;
      [apply Z.eqb_eq in E3; subst; exfalso; apply Hf; simpl; tauto|].
    destruct (f =? Worker.stop_flag)%Z eqn:E4;
      [apply Z.eqb_eq in E4; subst; exfalso; apply Hf; simpl; tauto|].
    reflexivity.
  - intros ms c c' rest H. exact (worker_loop_done key matrix chunk _ _ _ _ _ _ _ _ H).
Qed.

Lemma start_worker_build_loop_witness :
  ~ In 7%Z [Worker.add_signal_flag; Worker.add_op_flag;
            Worker.add_probe_flag; Worker.stop_flag] /\
  Worker.start_worker
    (fun (c : list nat) (k : nat) (_ : String.string) (_ : nat) => k :: c)
    (fun c _ => 100 :: c) (fun c k _ _ => k :: c)
    (flat_map Worker.encode
       [Worker.ROp (key := nat) (matrix := nat) String.EmptyString;
        Worker.RProbe 3 String.EmptyString 2%Z] ++ [Worker.MInt 7%Z]) [] =
  Worker.WInvalid [3; 100] /\
  exists rs,
    flat_map Worker.encode
      [Worker.ROp (key := nat) (matrix := nat) String.EmptyString] ++
      [Worker.MInt 4%Z; Worker.MInt 9%Z] =
    flat_map Worker.encode rs ++ Worker.MInt Worker.stop_flag :: [Worker.MInt 9%Z] /\
    [100] = fold_left (Worker.apply_record
      (fun (c : list nat) (k : nat) (_ : String.string) (_ : nat) => k :: c)
      (fun c _ => 100 :: c) (fun c k _ _ => k :: c)) rs [].
Proof.
  assert (Hf : ~ In 7%Z [Worker.add_signal_flag; Worker.add_op_flag;
                         Worker.add_probe_flag; Worker.stop_flag]).
  { simpl. intros H. repeat (destruct H as [H|H]; [discriminate H|]). exact H. }
  split; [exact Hf|]. split.
  - apply (proj1 (proj2 (start_worker_build_loop nat nat (list nat)
      (fun (c : list nat) (k : nat) (_ : String.string) (_ : nat) => k :: c)
      (fun c _ => 100 :: c) (fun c k _ _ => k :: c)))).
    exact Hf.
  - apply (proj2 (proj2 (start_worker_build_loop nat nat (list nat)
      (fun (c : list nat) (k : nat) (_ : String.string) (_ : nat) => k :: c)
      (fun c _ => 100 :: c) (fun c k _ _ => k :: c)))).
    reflexivity.
Defined.

(** ** The Python bridge *)

Section PyBridgeProofs.

Import PyBridge.

Variables pydouble cfloat dtype : Type.
Variable to_cfloat : pydouble -> cfloat.
Variable to_dtype : cfloat -> dtype.

Local Abbreviation conv := (fun v : pydouble => to_dtype (to_cfloat v)).
Local Abbreviation item := (extract_item to_cfloat to_dtype).
Local Abbreviation writes := (write_items to_cfloat to_dtype).

Lemma set_nth_length (l : list dtype) i x : length (set_nth l i x) = length l.
Proof.
  revert i; induction l as [|y l IH]; intros [|i]; simpl; auto.
Qed.

Lemma firstn_set_nth (l : list dtype) i x :
  i < length l -> firstn (S i) (set_nth l i x) = firstn i l ++ [x].
Proof.
  revert i; induction l as [|y l IH]; intros [|i] Hi; simpl in *; try lia.
  - reflexivity.
  - rewrite IH by lia. reflexivity.
Qed.

Lemma skipn_set_nth (l : list dtype) i x j :
  i < j -> skipn j (set_nth l i x) = skipn j l.
Proof.
  revert i j; induction l as [|y l IH]; intros [|i] [|j] Hij; simpl;
    try lia; try reflexivity; apply IH; lia.
Qed.

Lemma nth_error_set_nth (l : list dtype) i x k y :
  nth_error (set_nth l i x) k = Some y -> nth_error l k = Some y \/ y = x.
Proof.
  revert i k; induction l as [|z l IH]; intros [|i] [|k] H; simpl in *;
    try discriminate H; eauto.
  injection H as <-. right; reflexivity.
Qed.

Lemma extract_item_conv o i x :
  item o i = Some x -> exists v, x = conv v.
Proof.
  unfold extract_item. destruct (getitem o i) as [[v| |]|]; simpl;
    intros H; try discriminate H.
  injection H as <-. exists v. reflexivity.
Qed.

Lemma write_items_ok o n :
  forall i out g, i + n <= length out ->
  (forall k, i <= k < i + n -> item o k = Some (g k)) ->
  writes o i n out = PyOk (firstn i out ++ map g (seq i n) ++ skipn (i + n) out).
Proof.
  induction n as [|n IH]; intros i out g Hlen Hg; simpl.
  - rewrite Nat.add_0_r, firstn_skipn. reflexivity.
  - rewrite (Hg i) by lia.
    rewrite (IH (S i) _ g)
      by first [rewrite set_nth_length; lia | intros; apply Hg; lia].
    rewrite firstn_set_nth by lia.
    rewrite skipn_set_nth by lia.
    rewrite <- app_assoc. replace (i + S n) with (S i + n) by lia. reflexivity.
Qed.

Lemma write_items_error o n :
  forall i out, (exists k, i <= k < i + n /\ item o k = None) ->
  exists out', writes o i n out = PyError out'.
Proof.
  induction n as [|n IH]; intros i out [k [Hk Hn]]; [lia|].
  simpl. destruct (item o i) as [x|] eqn:E.
  - apply IH. exists k. split; [|exact Hn].
    destruct (Nat.eq_dec k i) as [->|]; [congruence|lia].
  - eexists; reflexivity.
Qed.

Lemma write_items_values o n :
  forall i out0 out, writes o i n out0 = PyOk out ->
  forall k y, nth_error out k = Some y ->
  nth_error out0 k = Some y \/ exists v, y = conv v.
Proof.
  induction n as [|n IH]; intros i out0 out H k y Hk; simpl in H.
  - injection H as ->. left; exact Hk.
  - destruct (item o i) as [x|] eqn:E; [|discriminate H].
    destruct (IH _ _ _ H k y Hk) as [H1|H1]; [|right; exact H1].
    destruct (nth_error_set_nth _ _ _ _ _ H1) as [H2| ->]; [left; exact H2|].
    right. exact (extract_item_conv _ _ _ E).
Qed.

(** Reading [o[i]] for every index of a sequence object reads its items. *)
Lemma map_getitem_seq {T} (F : PyObj pydouble -> option T) (os : list (PyObj pydouble)) :
  map (fun i => match getitem (PySeq os) i with Some x => F x | None => None end)
      (seq 0 (length os)) = map F os.
Proof.
  induction os as [|o os IH]; [reflexivity|].
  cbn [length seq map]. rewrite <- seq_shift, map_map. f_equal. exact IH.
Qed.

Lemma collect_map_Some {A B} (f : A -> B) (l : list A) :
  collect (map (fun x => Some (f x)) l) = Some (map f l).
Proof.
  induction l as [|x l IH]; simpl; [reflexivity|]. rewrite IH. reflexivity.
Qed.

Lemma vector_items (vs : list pydouble) :
  collect (map (item (PySeq (map PyFloat vs))) (seq 0 (length vs))) =
  Some (map conv vs).
Proof.
  unfold extract_item.
  replace (length vs) with (length (map (@PyFloat pydouble) vs))
    by apply length_map.
  rewrite (map_getitem_seq (fun x => option_map to_dtype (extract_float to_cfloat x))).
  rewrite map_map. simpl. apply collect_map_Some.
Qed.

Lemma matrix_items (rows : list (list pydouble)) m :
  Forall (fun r => length r = m) rows ->
  ndarray_to_matrix to_cfloat to_dtype
    (mkNdarray 2 [length rows; m]
       (PySeq (map (fun r => PySeq (map PyFloat r)) rows))) =
  Some (map (map conv) rows).
Proof.
  intros Hrows. unfold ndarray_to_matrix. cbn [nd_shape nd_obj nth].
  replace (length rows) with
    (length (map (fun r => PySeq (map (@PyFloat pydouble) r)) rows))
    by apply length_map.
  rewrite (map_getitem_seq
    (fun row => collect (map (item row) (seq 0 m)))).
  rewrite map_map.
  rewrite (map_ext_in _ (fun r => Some (map conv r))).
  - apply collect_map_Some.
  - intros r Hr. rewrite Forall_forall in Hrows.
    rewrite <- (Hrows r Hr). apply vector_items.
Qed.

Lemma map_nth_seq_firstn (L : list dtype) d :
  forall n, n <= length L -> map (fun k => nth k L d) (seq 0 n) = firstn n L.
Proof.
  induction L as [|a L IH]; intros [|n] Hn; simpl in *; try lia;
    try reflexivity.
  rewrite <- seq_shift, map_map. f_equal. apply IH. lia.
Qed.

Lemma item_seq_prefix (vs : list pydouble) extra k :
  k < length vs -> forall d,
  item (PySeq (map PyFloat vs ++ extra)) k = Some (nth k (map conv vs) d).
Proof.
  intros Hk d. unfold extract_item, getitem.
  destruct (nth_error vs k) as [v|] eqn:E;
    [|apply nth_error_None in E; lia].
  rewrite nth_error_app1 by (rewrite length_map; exact Hk).
  rewrite nth_error_map, E. simpl.
  assert (H' : nth_error (map conv vs) k = Some (conv v))
    by (rewrite nth_error_map, E; reflexivity).
  erewrite nth_error_nth by exact H'. reflexivity.
Qed.

Lemma item_not_float (l : list (PyObj pydouble)) k :
  (forall v, nth_error l k <> Some (PyFloat v)) -> item (PySeq l) k = None.
Proof.
  intros H. unfold extract_item, getitem.
  destruct (nth_error l k) as [[v| |]|]; try reflexivity.
  exfalso. exact (H v eq_refl).
Qed.

End PyBridgeProofs.

Lemma copy_input_None {dtype} (src dst : list dtype) :
  PyBridge.copy_input src dst = None <-> length dst < length src.
Proof.
  revert dst; induction src as [|x src IH]; intros [|y dst]; simpl.
  - split; [discriminate|lia].
  - split; [discriminate|lia].
  - split; [intros _; lia|reflexivity].
  - rewrite <- Nat.succ_lt_mono, <- IH.
    destruct (PyBridge.copy_input src dst); simpl; split; congruence.
Qed.




(** Claim C10.  Every element that [add_signal] stores from a numpy array
    (of one or of two dimensions), and every element that [PyFunc] writes
    from its callback's result, is [bpy::extract<float>] of the Python
    value converted to [dtype]: it went through a C [float]. *)
Theorem python_values_through_float pydouble cfloat dtype
    (to_cfloat : pydouble -> cfloat) (to_dtype : cfloat -> dtype) :
  (forall vs : list pydouble,
     PyBridge.add_signal to_cfloat to_dtype
       (PyBridge.mkNdarray 1 [length vs] (PyBridge.PySeq (map PyBridge.PyFloat vs))) =
     Some (PyBridge.SigVector (map (fun v => to_dtype (to_cfloat v)) vs))) /\
  (forall (rows : list (list pydouble)) m,
     Forall (fun r => length r = m) rows ->
     PyBridge.add_signal to_cfloat to_dtype
       (PyBridge.mkNdarray 2 [length rows; m]
          (PyBridge.PySeq (map (fun r => PyBridge.PySeq (map PyBridge.PyFloat r)) rows))) =
     Some (PyBridge.SigMatrix (map (map (fun v => to_dtype (to_cfloat v))) rows))) /\
  (forall py_fn (pf : PyBridge.PyFunc dtype) time out,
     PyBridge.PyFunc_call to_cfloat to_dtype py_fn pf time = PyBridge.PyOk out ->
     forall k y, nth_error out k = Some y ->
     nth_error (PyBridge.output pf) k = Some y \/
     exists v, y = to_dtype (to_cfloat v)).
Proof.
  refine (conj _ (conj _ _)).
  - intros vs. unfold PyBridge.add_signal, PyBridge.ndarray_to_vector,
      PyBridge.nd_size. cbn [PyBridge.is_vector PyBridge.nd_ndim Nat.eqb
      PyBridge.nd_shape PyBridge.nd_obj fold_right].
    rewrite Nat.mul_1_r, vector_items. reflexivity.
  - intros rows m Hrows. unfold PyBridge.add_signal.
    cbn [PyBridge.is_vector PyBridge.nd_ndim Nat.eqb].
    rewrite matrix_items by exact Hrows. reflexivity.
  - intros py_fn pf time out H k y Hk.
    unfold PyBridge.PyFunc_call in H.
    destruct (PyBridge.input_arg pf) as [arg|]; [|discriminate H]. cbv zeta in H.
    destruct (py_fn _ _) as [v|l|]; simpl in H.
    + destruct (PyBridge.output pf) eqn:Eo; [discriminate H|]. rewrite <- Eo in H.
      injection H as <-.
      destruct (nth_error_set_nth _ _ _ _ _ _ Hk) as [H1| ->];
        [left; rewrite Eo in H1; exact H1|right; exists v; reflexivity].
    + eapply write_items_values; eassumption.
    + eapply write_items_values; eassumption.
Qed.

Lemma python_values_through_float_witness :
  Forall (fun r => length r = 2) [[1 # 2; 3 # 2]; [5 # 4; 7 # 1]] /\
  PyBridge.add_signal (fun q : Q => (Qnum q / Zpos (Qden q))%Z) inject_Z
    (PyBridge.mkNdarray 2 [2; 2]
       (PyBridge.PySeq (map (fun r => PyBridge.PySeq (map PyBridge.PyFloat r))
          [[1 # 2; 3 # 2]; [5 # 4; 7 # 1]]))) =
  Some (PyBridge.SigMatrix [[0 # 1; 1 # 1]; [1 # 1; 7 # 1]]).
Proof.
  assert (Hrows : Forall (fun r => length r = 2) [[1 # 2; 3 # 2]; [5 # 4; 7 # 1]]).
  { repeat constructor. }
  split; [exact Hrows|].
  exact (proj1 (proj2 (python_values_through_float Q Z Q
             (fun q : Q => (Qnum q / Zpos (Qden q))%Z) inject_Z))
           [[1 # 2; 3 # 2]; [5 # 4; 7 # 1]] 2 Hrows).
Defined.

(** Claim C2, as the code has it.  [MpiSimulator::reset] leaves the
    simulator's state as it is; on the spec's "Reset restores" example the
    state after [reset] is not the one the spec requires (the signals keep
    their run values, [time] is not 0, the probe buffer is not empty, the
    receive is not re-armed), while the state the spec expects meets the
    requirement. *)
Theorem mpi_simulator_reset_noop :
  (forall dtype (sim : Simulator.MpiSimulator dtype), Simulator.reset sim = sim) /\
  Simulator.reset_post (Simulator.reset Simulator.example_after_run) = false /\
  Simulator.reset_post Simulator.example_expected = true.
Proof.
  refine (conj _ (conj _ _)).
  - intros dtype sim. reflexivity.
  - vm_compute. reflexivity.
  - vm_compute. reflexivity.
Qed.

(* ================================================================== *)
(** * Further properties of the code *)

(** ** Blocking on a link *)

(** On a link, a call of [MPIRecv] blocks exactly when it is not the first
    and the sender has not yet done as many steps as the receiver: the
    receive of step [s] waits for the send of step [s - 1].  The messages
    sent and not yet received are the sender's steps less the receiver's
    calls after its first. *)
Theorem mpi_link_blocking dtype (x : nat -> dtype) c0 src dst tag b0 sch L :
  Link.exec x sch (Link.init src dst tag b0 c0) = Some L ->
  (Link.step x Link.EvRecv L = None <->
   1 <= Link.l_nrecv L /\ Link.l_nsend L < Link.l_nrecv L) /\
  length (Link.l_chan L) = Link.l_nsend L - pred (Link.l_nrecv L).
Proof.
  intros Hex.
  destruct (link_inv_exec dtype x c0 sch _ L
              (link_inv_init dtype x c0 src dst tag b0) Hex)
    as (_ & Hr & Hle & Hch & _).
  destruct L as [s r c ch ns nr]; simpl in *.
  split.
  - simpl. unfold MPIRecv_call. rewrite Hr, Hch.
    destruct nr as [|nr]; simpl.
    + split; [discriminate|lia].
    + destruct (ns - nr) as [|k] eqn:Hk; simpl; split; try lia;
        try discriminate; reflexivity.
  - rewrite Hch, length_map, length_seq. reflexivity.
Qed.

Lemma mpi_link_blocking_witness :
  Link.exec (fun k => Z.of_nat k) [Link.EvSend; Link.EvRecv; Link.EvRecv]
    (Link.init 0 1 7 0%Z 100%Z) =
  Some (Link.mkState (mkMPISend 1 7 false 0%Z) (mkMPIRecv 0 7 false 0%Z)
          0%Z [] 1 2) /\
  ((Link.step (fun k => Z.of_nat k) Link.EvRecv
      (Link.mkState (mkMPISend 1 7 false 0%Z) (mkMPIRecv 0 7 false 0%Z)
         0%Z [] 1 2) = None <-> 1 <= 2 /\ 1 < 2) /\
   length (@nil Z) = 1 - pred 2).
Proof.
  split; [reflexivity|].
  exact (mpi_link_blocking Z (fun k => Z.of_nat k) 100%Z 0 1 7 0%Z
           [Link.EvSend; Link.EvRecv; Link.EvRecv] _ eq_refl).
Defined.

(** When both chunks have done the same number [n >= 1] of steps,
    [MPIRecv::complete()] takes the last message off the link into the
    receive's buffer: the link is then empty, the buffer holds the value
    sent at step [n - 1], and the content view keeps the value of step
    [n - 2] (the initial value when [n = 1]): the value sent at the last
    step never reaches the content view. *)
Theorem mpi_recv_complete_drains dtype (x : nat -> dtype) c0 src dst tag b0
    sch L n :
  Link.exec x sch (Link.init src dst tag b0 c0) = Some L ->
  Link.l_nsend L = n -> Link.l_nrecv L = n -> 1 <= n ->
  exists L', link_complete_recv L = Some L' /\
    Link.l_chan L' = [] /\
    recv_buffer (Link.l_recv L') = x (n - 1) /\
    Link.l_content L' = (if n <=? 1 then c0 else x (n - 2)).
Proof.
  intros Hex Hns Hnr Hn.
  destruct (link_inv_exec dtype x c0 sch _ L
              (link_inv_init dtype x c0 src dst tag b0) Hex)
    as (_ & _ & _ & Hch & Hc).
  destruct L as [s r c ch ns nr]; simpl in *. subst ns nr.
  unfold link_complete_recv; simpl. rewrite Hch.
  replace (n - pred n) with 1 by lia. simpl.
  eexists. split; [reflexivity|]. simpl.
  split; [reflexivity|]. split; [f_equal; lia|]. exact Hc.
Qed.

Lemma mpi_recv_complete_drains_witness :
  1 <= 2 /\
  exists L', link_complete_recv
    (Link.mkState (mkMPISend 1 7 false 1%Z) (mkMPIRecv 0 7 false 0%Z)
       0%Z [1%Z] 2 2) = Some L' /\
    Link.l_chan L' = [] /\ recv_buffer (Link.l_recv L') = 1%Z /\
    Link.l_content L' = 0%Z.
Proof.
  split; [lia|].
  exact (mpi_recv_complete_drains Z (fun k => Z.of_nat k) 100%Z 0 1 7 0%Z
           [Link.EvSend; Link.EvRecv; Link.EvSend; Link.EvRecv] _ 2
           eq_refl eq_refl eq_refl ltac:(lia)).
Defined.

(** ** The barrier over a whole run *)

(** Over the first [n] calls of a fresh [MPIBarrier], [MPI_Barrier] is
    called [(n - 1) / BARRIER_PERIOD] times: at the calls with counter
    [BARRIER_PERIOD], [2 * BARRIER_PERIOD], ... *)
Theorem mpi_barrier_total_count P n :
  0 < P ->
  length (filter (fun did => did) (barrier_trace P MPIBarrier_init n)) =
  (n - 1) / P.
Proof.
  intros HP. unfold MPIBarrier_init. rewrite barrier_trace_seq.
  rewrite filter_map_swap, length_map.
  destruct n as [|m]; [simpl; symmetry; apply Nat.div_small; lia|].
  pose proof (count_multiples P (S m) HP) as Hc.
  cbn [seq] in Hc |- *. cbn [filter] in Hc |- *.
  rewrite Nat.Div0.mod_0_l in Hc. simpl in Hc |- *.
  rewrite (filter_ext_in _ (fun k => k mod P =? 0)).
  - replace (m - 0) with m by lia.
    replace (m + P - 0) with (m + 1 * P) in Hc by lia.
    rewrite Nat.div_add in Hc by lia. lia.
  - intros k Hk. apply in_seq in Hk.
    destruct k; [lia|]. reflexivity.
Qed.

Lemma mpi_barrier_total_count_witness :
  0 < 3 /\
  length (filter (fun did => did) (barrier_trace 3 MPIBarrier_init 10)) = 3.
Proof.
  split; [lia|]. exact (mpi_barrier_total_count 3 10 ltac:(lia)).
Defined.

(** ** Building and running on the master ([MpiSimulator]) *)

Section SimBuildProofs.

Import SimBuild.

Variables matrix chunk : Type.
Variable chunk_add_signal : chunk -> nat -> String.string -> matrix -> chunk.
Variable chunk_add_op : chunk -> String.string -> chunk.
Variable chunk_add_probe : chunk -> nat -> nat -> Z -> chunk.

Local Abbreviation apply :=
  (apply_call chunk_add_signal chunk_add_op chunk_add_probe).

Lemma apply_call_routing (sim : MpiSimulator matrix chunk) c :
  num_components (apply sim c) = num_components sim /\
  master_chunk (apply sim c) =
    (if call_component c =? 0
     then apply_master chunk_add_signal chunk_add_op chunk_add_probe (master_chunk sim) c
     else master_chunk sim) /\
  iface_log (apply sim c) =
    iface_log sim ++ (if call_component c =? 0 then [] else [to_iface c]).
Proof.
  destruct c as [comp k l d|comp s|comp pk sk p]; simpl;
    unfold add_signal, add_op, add_probe;
    destruct (comp =? 0); simpl; rewrite ?app_nil_r; auto.
Qed.

(** A sequence of [add_signal], [add_op] and [add_probe] calls on the
    master: the calls for component 0 are applied to the master chunk in
    their order, the others are passed to [mpi_interface] in their order,
    and the number of components never changes. *)
Theorem mpi_simulator_build_routing calls :
  forall sim : MpiSimulator matrix chunk,
  num_components (fold_left apply calls sim) = num_components sim /\
  master_chunk (fold_left apply calls sim) =
    fold_left (apply_master chunk_add_signal chunk_add_op chunk_add_probe)
      (filter (fun c => call_component c =? 0) calls) (master_chunk sim) /\
  iface_log (fold_left apply calls sim) =
    iface_log sim ++ map to_iface
      (filter (fun c => negb (call_component c =? 0)) calls).
Proof.
  induction calls as [|c calls IH]; intros sim; simpl.
  - rewrite app_nil_r. auto.
  - destruct (IH (apply sim c)) as (H1 & H2 & H3).
    destruct (apply_call_routing sim c) as (R1 & R2 & R3).
    rewrite H1, H2, H3, R1, R2, R3.
    destruct (call_component c =? 0); simpl;
      rewrite <- ?app_assoc; auto.
Qed.

(** After a sequence of build calls, [probe_counts] of a component has
    grown by the number of [add_probe] calls for it, and the entry of a
    probe key is reset to an empty list when some [add_probe] call has that
    key (erasing the data gathered for it before), unchanged otherwise. *)
Theorem mpi_simulator_probe_registration calls :
  forall sim : MpiSimulator matrix chunk,
  (forall comp, probe_counts (fold_left apply calls sim) comp =
     probe_counts sim comp +
     length (filter (fun c => match c with
                              | BProbe comp' _ _ _ => comp' =? comp
                              | _ => false end) calls)) /\
  (forall k, probe_data (fold_left apply calls sim) k =
     if existsb (fun c => match c with
                          | BProbe _ pk _ _ => pk =? k
                          | _ => false end) calls
     then Some [] else probe_data sim k).
Proof.
  induction calls as [|c calls IH]; intros sim; simpl.
  - split; intros; [lia|reflexivity].
  - destruct (IH (apply sim c)) as [H1 H2]. split.
    + intros comp. rewrite H1.
      destruct c as [cp k l d|cp s|cp pk sk p];
        try (simpl; unfold add_signal, add_op;
             destruct (cp =? 0); reflexivity).
      assert (Hc : probe_counts (apply sim (BProbe cp pk sk p)) comp =
                   probe_counts sim comp + (if cp =? comp then 1 else 0)).
      { simpl. unfold add_probe.
        destruct (cp =? 0); simpl; unfold Net.upd;
          destruct (Nat.eqb_spec comp cp), (Nat.eqb_spec cp comp);
          subst; try lia; congruence. }
      rewrite Hc. simpl.
      destruct (cp =? comp); simpl; lia.
    + intros k. rewrite H2.
      destruct c as [cp kk l d|cp s|cp pk sk p];
        try (simpl; unfold add_signal, add_op;
             destruct (cp =? 0); reflexivity).
      assert (Hd : probe_data (apply sim (BProbe cp pk sk p)) k =
                   if pk =? k then Some [] else probe_data sim k).
      { simpl. unfold add_probe.
        destruct (cp =? 0); simpl; unfold Net.upd;
          destruct (Nat.eqb_spec k pk), (Nat.eqb_spec pk k);
          subst; congruence. }
      rewrite Hd. simpl. destruct (pk =? k), (existsb _ calls); reflexivity.
Qed.

End SimBuildProofs.

(** The loop over the master's probes: with distinct keys that all have an
    entry, each entry gets its probe's new data appended; a key without an
    entry makes it throw. *)
Lemma gather_master_spec {matrix} (pm : list (nat * list matrix)) :
  forall pd, NoDup (map fst pm) ->
  (forall k, In k (map fst pm) -> pd k <> None) ->
  SimBuild.gather_master pm pd =
  Some (fun k => match find (fun kd => fst kd =? k) pm with
                 | Some (_, new_data) => option_map (fun d => d ++ new_data) (pd k)
                 | None => pd k
                 end).
Proof.
  induction pm as [|[k0 nd] pm IH]; intros pd Hnd Hall; simpl.
  - reflexivity.
  - inversion Hnd as [|x l Hnin Hnd']; subst.
    destruct (pd k0) as [d0|] eqn:E0;
      [|exfalso; apply (Hall k0); [left; reflexivity|exact E0]].
    rewrite IH; [|exact Hnd'|].
    + f_equal. apply functional_extensionality. intros k.
      unfold Net.upd. destruct (k0 =? k) eqn:Ek.
      * apply Nat.eqb_eq in Ek. subst k.
        rewrite Nat.eqb_refl.
        destruct (find (fun kd => fst kd =? k0) pm) as [[k1 nd1]|] eqn:Ef.
        -- exfalso. apply find_some in Ef. destruct Ef as [Hin Heq].
           apply Nat.eqb_eq in Heq. simpl in Heq. subst k1.
           apply Hnin. apply (in_map fst) in Hin. exact Hin.
        -- rewrite E0. reflexivity.
      * rewrite Nat.eqb_sym, Ek. reflexivity.
    + intros k Hk. unfold Net.upd. destruct (k =? k0); [discriminate|].
      apply Hall. right. exact Hk.
Qed.

Lemma gather_master_missing {matrix} (pm : list (nat * list matrix)) :
  forall pd k, In k (map fst pm) -> pd k = None ->
  SimBuild.gather_master pm pd = None.
Proof.
  induction pm as [|[k0 nd] pm IH]; intros pd k Hin Hk; simpl in *;
    [contradiction|].
  destruct (pd k0) as [d0|] eqn:E0; [|reflexivity].
  destruct Hin as [->|Hin]; [congruence|].
  apply (IH _ k Hin). unfold Net.upd.
  destruct (k =? k0) eqn:E; [apply Nat.eqb_eq in E; congruence|exact Hk].
Qed.

(** With one component, [run_n_steps] succeeds, keeps one component, leaves
    the calls to [mpi_interface] and the probe counts as they were, and
    appends to the entry of each of the master's probes that probe's new
    data, when the master's probe keys are distinct and all have an entry;
    other entries stay as they were.  Nothing is said of the master chunk
    after the call ([Probe::get_data] is not modelled). *)
Theorem mpi_simulator_run_single_component {matrix chunk}
    (chunk_run_n_steps : chunk -> nat -> chunk)
    (chunk_probe_map : chunk -> list (nat * list matrix))
    iface_gather iface_run_n_steps (sim : SimBuild.MpiSimulator matrix chunk) steps :
  SimBuild.num_components sim = 1 ->
  NoDup (map fst (chunk_probe_map (chunk_run_n_steps (SimBuild.master_chunk sim) steps))) ->
  (forall k, In k (map fst (chunk_probe_map
                (chunk_run_n_steps (SimBuild.master_chunk sim) steps))) ->
             SimBuild.probe_data sim k <> None) ->
  exists sim',
    SimBuild.run_n_steps chunk_run_n_steps chunk_probe_map iface_gather
    iface_run_n_steps sim steps = Some sim' /\
    SimBuild.num_components sim' = 1 /\
    SimBuild.iface_log sim' = SimBuild.iface_log sim /\
    SimBuild.probe_counts sim' = SimBuild.probe_counts sim /\
    (forall k, SimBuild.get_probe_data sim' k =
       match find (fun kd => fst kd =? k)
               (chunk_probe_map (chunk_run_n_steps (SimBuild.master_chunk sim) steps)) with
       | Some (_, new_data) =>
           option_map (fun d => d ++ new_data) (SimBuild.probe_data sim k)
       | None => SimBuild.probe_data sim k
       end).
Proof.
  intros H1 Hnd Hall. unfold SimBuild.run_n_steps. rewrite H1. simpl.
  rewrite (gather_master_spec _ _ Hnd Hall).
  eexists. split; [reflexivity|]. simpl.
  refine (conj eq_refl (conj eq_refl (conj eq_refl _))).
  intros k. reflexivity.
Qed.

Definition ex_probe_sim : SimBuild.MpiSimulator nat (list (nat * list nat)) :=
  SimBuild.mkMpiSimulator 1 [(2, [5])] [] (fun _ => 0)
    (fun k => if k =? 2 then Some [4] else None).

Lemma mpi_simulator_run_single_component_witness :
  exists sim',
    SimBuild.run_n_steps (fun c _ => c) (fun c => c) (fun pd _ => pd)
      (fun c _ => c) ex_probe_sim 3 = Some sim' /\
    SimBuild.get_probe_data sim' 2 = Some [4; 5].
Proof.
  destruct (mpi_simulator_run_single_component (fun c _ => c) (fun c => c)
             (fun pd _ => pd) (fun c _ => c) ex_probe_sim 3)
    as (sim' & Hrun & _ & _ & _ & Hget).
  - reflexivity.
  - simpl. constructor; [intros []|constructor].
  - simpl. intros k [<-|[]]. discriminate.
  - exists sim'. split; [exact Hrun|]. rewrite Hget. reflexivity.
Defined.

(** With one component, [run_n_steps] throws ([probe_data.at]) when one of
    the master's probes has no entry in [probe_data]. *)
Theorem mpi_simulator_run_missing_entry {matrix chunk}
    (chunk_run_n_steps : chunk -> nat -> chunk)
    (chunk_probe_map : chunk -> list (nat * list matrix))
    iface_gather iface_run_n_steps (sim : SimBuild.MpiSimulator matrix chunk) steps k :
  SimBuild.num_components sim = 1 ->
  In k (map fst (chunk_probe_map (chunk_run_n_steps (SimBuild.master_chunk sim) steps))) ->
  SimBuild.probe_data sim k = None ->
  SimBuild.run_n_steps chunk_run_n_steps chunk_probe_map iface_gather
    iface_run_n_steps sim steps = None.
Proof.
  intros H1 Hin Hk. unfold SimBuild.run_n_steps. rewrite H1. simpl.
  rewrite (gather_master_missing _ _ _ Hin Hk). reflexivity.
Qed.

Lemma mpi_simulator_run_missing_entry_witness :
  SimBuild.run_n_steps (fun c _ => c) (fun c => c) (fun pd _ => pd)
    (fun c _ => c)
    (SimBuild.mkMpiSimulator 1 [(2, [5]); (3, [6])] [] (fun _ => 0)
       (fun k => if k =? 2 then Some [4] else None)) 1 = None.
Proof.
  apply (mpi_simulator_run_missing_entry (fun c _ => c) (fun c => c)
           (fun pd _ => pd) (fun c _ => c) _ 1 3).
  - reflexivity.
  - simpl. right. left. reflexivity.
  - reflexivity.
Defined.

(** ** The master's command line ([mpi_master_start], [main]) *)

Module MasterStartProofs.

Import Stdlib.Strings.String Stdlib.Strings.Ascii.
Import MasterStart.
Local Open Scope string_scope.

Lemma find_last_of_none c s :
  (forall i, get i s <> Some c) -> find_last_of c s = None.
Proof.
  induction s as [|a s IH]; intros H; simpl; [reflexivity|].
  rewrite IH by (intros i; exact (H (S i))).
  destruct (Ascii.eqb_spec a c) as [->|]; [|reflexivity].
  exfalso. exact (H 0 eq_refl).
Qed.

Lemma find_last_of_append c base ext :
  find_last_of c ext = None ->
  find_last_of c (append base (String c ext)) = Some (String.length base).
Proof.
  intros Hext. induction base as [|a base IH]; simpl.
  - rewrite Hext, Ascii.eqb_refl. reflexivity.
  - rewrite IH. reflexivity.
Qed.

Lemma substring_append_prefix base rest :
  substring 0 (String.length base) (append base rest) = base.
Proof.
  induction base as [|a base IH]; simpl.
  - destruct rest; reflexivity.
  - rewrite IH. reflexivity.
Qed.

(** The default log file name: a network file name without a dot gets
    [".h5"] appended; otherwise everything from its last dot on is replaced
    by [".h5"]. *)
Theorem default_log_filename_spec :
  (forall net, (forall i, get i net <> Some dot) ->
     default_log_filename net = append net h5_suffix) /\
  (forall base ext, (forall i, get i ext <> Some dot) ->
     default_log_filename (append base (String dot ext)) = append base h5_suffix).
Proof.
  split.
  - intros net H. unfold default_log_filename.
    rewrite (find_last_of_none _ _ H). reflexivity.
  - intros base ext H. unfold default_log_filename.
    rewrite (find_last_of_append _ _ _ (find_last_of_none _ _ H)). simpl.
    rewrite substring_append_prefix. reflexivity.
Qed.

Lemma default_log_filename_spec_witness :
  default_log_filename "run.v2.net" = "run.v2.h5" /\
  default_log_filename "net" = "net.h5".
Proof.
  split.
  - apply (proj2 default_log_filename_spec "run.v2" "net").
    intros [|[|[|i]]]; simpl; [discriminate|discriminate|discriminate|].
    destruct i; discriminate.
  - apply (proj1 default_log_filename_spec "net").
    intros [|[|[|i]]]; simpl; [discriminate|discriminate|discriminate|].
    destruct i; discriminate.
Defined.







End MasterStartProofs.

(** ** The Python bridge: arrays and callbacks *)

Lemma collect_seq_Some {T} (f : nat -> option T) n :
  forall start vs,
  PyBridge.collect (map f (seq start n)) = Some vs <->
  length vs = n /\ forall k, k < n -> f (start + k) = nth_error vs k.
Proof.
  induction n as [|n IH]; intros start vs; simpl.
  - split.
    + intros H. injection H as <-. split; [reflexivity|intros; lia].
    + intros [H _]. destruct vs; [reflexivity|discriminate H].
  - destruct (f start) as [x|] eqn:Ef.
    + destruct (PyBridge.collect (map f (seq (S start) n))) as [r|] eqn:Er; simpl.
      * pose proof (proj1 (IH (S start) r) Er) as [Hl Hr]. split.
        -- intros H. injection H as <-. split; [simpl; lia|].
           intros [|k] Hk; simpl; [rewrite Nat.add_0_r; exact Ef|].
           rewrite <- Hr by lia. f_equal. lia.
        -- intros [Hl' Hk]. destruct vs as [|y vs]; [discriminate Hl'|].
           specialize (Hk 0 ltac:(lia)) as H0. rewrite Nat.add_0_r, Ef in H0.
           simpl in H0. injection H0 as <-. f_equal. f_equal.
           assert (Hvs : PyBridge.collect (map f (seq (S start) n)) = Some vs).
           { apply IH. split; [simpl in Hl'; lia|].
             intros k Hk'. replace (S start + k) with (start + S k) by lia.
             apply Hk. lia. }
           congruence.
      * split; [discriminate|].
        intros [Hl' Hk]. destruct vs as [|y vs]; [discriminate Hl'|].
        assert (Hvs : PyBridge.collect (map f (seq (S start) n)) = Some vs).
        { apply IH. split; [simpl in Hl'; lia|].
          intros k Hk'. replace (S start + k) with (start + S k) by lia.
          apply Hk. lia. }
        congruence.
    + split; [discriminate|]. intros [Hl Hk].
      specialize (Hk 0 ltac:(lia)). rewrite Nat.add_0_r, Ef in Hk.
      destruct vs; [simpl in Hl; lia|discriminate Hk].
Qed.

Lemma collect_seq_None {T} (f : nat -> option T) n :
  forall start,
  PyBridge.collect (map f (seq start n)) = None <->
  exists k, k < n /\ f (start + k) = None.
Proof.
  induction n as [|n IH]; intros start; simpl.
  - split; [discriminate|]. intros (k & Hk & _). lia.
  - destruct (f start) as [x|] eqn:Ef.
    + destruct (PyBridge.collect (map f (seq (S start) n))) as [r|] eqn:Er; simpl.
      * split; [discriminate|]. intros (k & Hk & Hn).
        destruct k as [|k]; [rewrite Nat.add_0_r in Hn; congruence|].
        assert (Hc : PyBridge.collect (map f (seq (S start) n)) = None).
        { apply IH. exists k. split; [lia|]. rewrite <- Hn. f_equal. lia. }
        congruence.
      * split; [|reflexivity]. intros _.
        apply IH in Er as (k & Hk & Hn). exists (S k). split; [lia|].
        rewrite <- Hn. f_equal. lia.
    + split; [|reflexivity]. intros _. exists 0. split; [lia|].
      rewrite Nat.add_0_r. exact Ef.
Qed.

(** [add_signal] of a one-dimensional array: it builds a vector signal
    exactly when each of the first [size] items of the array is a number,
    the vector then holding those numbers, each through a C [float]; it
    throws exactly when one of those items is not a number. *)
Theorem add_signal_vector {pydouble cfloat dtype}
    (to_cfloat : pydouble -> cfloat) (to_dtype : cfloat -> dtype) shape l :
  let a := PyBridge.mkNdarray 1 shape (PyBridge.PySeq l) in
  (forall vs, PyBridge.add_signal to_cfloat to_dtype a = Some (PyBridge.SigVector vs) <->
     length vs = PyBridge.nd_size _ a /\
     forall k, k < PyBridge.nd_size _ a ->
       exists v, nth_error l k = Some (PyBridge.PyFloat v) /\
                 nth_error vs k = Some (to_dtype (to_cfloat v))) /\
  (PyBridge.add_signal to_cfloat to_dtype a = None <->
     exists k, k < PyBridge.nd_size _ a /\
               forall v, nth_error l k <> Some (PyBridge.PyFloat v)).
Proof.
  intros a.
  assert (Hitem : forall k, PyBridge.extract_item to_cfloat to_dtype (PyBridge.PySeq l) k =
            match nth_error l k with
            | Some (PyBridge.PyFloat v) => Some (to_dtype (to_cfloat v))
            | _ => None
            end).
  { intros k. unfold PyBridge.extract_item, PyBridge.getitem.
    destruct (nth_error l k) as [[v| |]|]; reflexivity. }
  unfold PyBridge.add_signal, PyBridge.is_vector, PyBridge.ndarray_to_vector.
  cbn [a PyBridge.nd_ndim PyBridge.nd_obj Nat.eqb]. split.
  - intros vs. split.
    + intros H.
      destruct (PyBridge.collect _) as [vs'|] eqn:E; simpl in H; [|discriminate H].
      injection H as <-.
      apply collect_seq_Some in E as [Hl Hk]. split; [exact Hl|].
      intros k Hk'. specialize (Hk k Hk'). simpl in Hk. rewrite Hitem in Hk.
      destruct (nth_error l k) as [[v| |]|]; try (symmetry in Hk; apply nth_error_None in Hk; lia).
      exists v. split; [reflexivity|symmetry; exact Hk].
    + intros [Hl Hk].
      assert (E : PyBridge.collect (map (PyBridge.extract_item to_cfloat to_dtype (PyBridge.PySeq l))
                    (seq 0 (PyBridge.nd_size _ a))) = Some vs).
      { apply collect_seq_Some. split; [exact Hl|].
        intros k Hk'. simpl. rewrite Hitem.
        destruct (Hk k Hk') as (v & -> & ->). reflexivity. }
      rewrite E. reflexivity.
  - split.
    + intros H.
      destruct (PyBridge.collect _) as [vs'|] eqn:E; simpl in H; [discriminate H|].
      apply collect_seq_None in E as (k & Hk & Hn). exists k. split; [exact Hk|].
      simpl in Hn. rewrite Hitem in Hn. intros v Hv. rewrite Hv in Hn. discriminate Hn.
    + intros (k & Hk & Hn).
      assert (E : PyBridge.collect (map (PyBridge.extract_item to_cfloat to_dtype (PyBridge.PySeq l))
                    (seq 0 (PyBridge.nd_size _ a))) = None).
      { apply collect_seq_None. exists k. split; [exact Hk|].
        simpl. rewrite Hitem.
        destruct (nth_error l k) as [[v| |]|]; try reflexivity.
        exfalso. exact (Hn v eq_refl). }
      rewrite E. reflexivity.
Qed.

Lemma add_signal_vector_witness :
  PyBridge.add_signal (fun q : Q => q) (fun q : Q => q)
    (PyBridge.mkNdarray 1 [2] (PyBridge.PySeq [PyBridge.PyFloat (1 # 1); PyBridge.PyOther])) = None /\
  PyBridge.add_signal (fun q : Q => q) (fun q : Q => q)
    (PyBridge.mkNdarray 1 [2] (PyBridge.PySeq [PyBridge.PyFloat (1 # 1); PyBridge.PyFloat (2 # 1)]))
  = Some (PyBridge.SigVector [1 # 1; 2 # 1]).
Proof.
  split.
  - apply (proj2 (proj2 (add_signal_vector (fun q : Q => q) (fun q : Q => q) [2]
             [PyBridge.PyFloat (1 # 1); PyBridge.PyOther]))).
    exists 1%nat. split; [unfold PyBridge.nd_size; simpl; lia|]. intros v. discriminate.
  - apply (proj1 (add_signal_vector (fun q : Q => q) (fun q : Q => q) [2]
             [PyBridge.PyFloat (1 # 1); PyBridge.PyFloat (2 # 1)]) [1 # 1; 2 # 1]).
    split; [reflexivity|]. unfold PyBridge.nd_size. simpl.
    intros [|[|k]] Hk; [eexists; split; reflexivity|eexists; split; reflexivity|lia].
Defined.

Lemma items_Some {pydouble cfloat dtype}
    (to_cfloat : pydouble -> cfloat) (to_dtype : cfloat -> dtype) o n vs :
  PyBridge.collect (map (PyBridge.extract_item to_cfloat to_dtype o) (seq 0 n)) = Some vs <->
  length vs = n /\
  forall k, k < n -> exists v, PyBridge.getitem o k = Some (PyBridge.PyFloat v) /\
                               nth_error vs k = Some (to_dtype (to_cfloat v)).
Proof.
  rewrite collect_seq_Some. unfold PyBridge.extract_item. simpl.
  split; intros [Hl Hk]; split; try exact Hl; intros k Hk'; specialize (Hk k Hk').
  - destruct (PyBridge.getitem o k) as [[v| |]|];
      try (symmetry in Hk; apply nth_error_None in Hk; lia).
    exists v. split; [reflexivity|symmetry; exact Hk].
  - destruct Hk as (v & -> & ->). reflexivity.
Qed.

(** [add_signal] of an array of two or more dimensions: it builds a matrix
    signal exactly when, for [i < shape[0]] and [j < shape[1]], each
    [a[i]] can be indexed and each [a[i][j]] is a number; the matrix then
    has [shape[0]] rows of [shape[1]] entries, entry [(i, j)] being
    [a[i][j]] through a C [float]. Items beyond the shape are not read. *)
Theorem add_signal_matrix {pydouble cfloat dtype}
    (to_cfloat : pydouble -> cfloat) (to_dtype : cfloat -> dtype)
    nd s0 s1 rest o m :
  nd <> 1 ->
  PyBridge.add_signal to_cfloat to_dtype (PyBridge.mkNdarray nd (s0 :: s1 :: rest) o)
    = Some (PyBridge.SigMatrix m) <->
  length m = s0 /\
  forall i, i < s0 ->
    exists row r, PyBridge.getitem o i = Some row /\ nth_error m i = Some r /\
      length r = s1 /\
      forall j, j < s1 -> exists v, PyBridge.getitem row j = Some (PyBridge.PyFloat v) /\
                                    nth_error r j = Some (to_dtype (to_cfloat v)).
Proof.
  intros Hnd.
  unfold PyBridge.add_signal, PyBridge.is_vector, PyBridge.ndarray_to_matrix.
  cbn [PyBridge.nd_ndim PyBridge.nd_shape PyBridge.nd_obj nth].
  apply Nat.eqb_neq in Hnd. rewrite Hnd.
  split.
  - intros H.
    destruct (PyBridge.collect _) as [m'|] eqn:E; simpl in H; [|discriminate H].
    injection H as <-.
    apply collect_seq_Some in E as [Hl Hk]. split; [exact Hl|].
    intros i Hi. specialize (Hk i Hi). simpl in Hk.
    destruct (nth_error m' i) as [r|] eqn:Er;
      [|apply nth_error_None in Er; lia].
    destruct (PyBridge.getitem o i) as [row|]; [|discriminate Hk].
    apply items_Some in Hk as [Hr Hj].
    exists row, r. repeat split; auto.
  - intros [Hl Hi].
    assert (E : PyBridge.collect (map (fun i =>
                  match PyBridge.getitem o i with
                  | Some row => PyBridge.collect
                                  (map (PyBridge.extract_item to_cfloat to_dtype row) (seq 0 s1))
                  | None => None
                  end) (seq 0 s0)) = Some m).
    { apply collect_seq_Some. split; [exact Hl|].
      intros i Hi'. simpl.
      destruct (Hi i Hi') as (row & r & -> & -> & Hr & Hj).
      apply items_Some. split; assumption. }
    rewrite E. reflexivity.
Qed.

Lemma add_signal_matrix_witness :
  PyBridge.add_signal (fun q : Q => q) (fun q : Q => q)
    (PyBridge.mkNdarray 2 [2; 1]
       (PyBridge.PySeq [PyBridge.PySeq [PyBridge.PyFloat (1 # 1); PyBridge.PyOther];
                        PyBridge.PySeq [PyBridge.PyFloat (2 # 1)]]))
  = Some (PyBridge.SigMatrix [[1 # 1]; [2 # 1]]).
Proof.
  apply (add_signal_matrix (fun q : Q => q) (fun q : Q => q) 2 2 1 []); [discriminate|].
  split; [reflexivity|].
  intros [|[|i]] Hi; [| |lia].
  - do 2 eexists. split; [reflexivity|]. split; [reflexivity|]. split; [reflexivity|].
    intros [|j] Hj; [|lia]. eexists. split; reflexivity.
  - do 2 eexists. split; [reflexivity|]. split; [reflexivity|]. split; [reflexivity|].
    intros [|j] Hj; [|lia]. eexists. split; reflexivity.
Defined.

Lemma write_items_size {pydouble cfloat dtype}
    (to_cfloat : pydouble -> cfloat) (to_dtype : cfloat -> dtype) o n :
  forall i out,
  match PyBridge.write_items to_cfloat to_dtype o i n out with
  | PyBridge.PyOk out' | PyBridge.PyError out' => length out' = length out
  | PyBridge.PyOutOfRange => False
  end.
Proof.
  induction n as [|n IH]; intros i out; simpl; [reflexivity|].
  destruct (PyBridge.extract_item to_cfloat to_dtype o i) as [x|]; [|reflexivity].
  specialize (IH (S i) (PyBridge.set_nth out i x)).
  destruct (PyBridge.write_items _ _ _ _ _ _);
    [rewrite IH; apply set_nth_length|rewrite IH; apply set_nth_length|exact IH].
Qed.

(** [PyFunc::operator()] never changes the size of its output vector,
    whether the input copy raises, or the callback's result is a number, a
    sequence, or raises part way through; the one other outcome is a
    number written to element 0 of an empty output, out of range. *)
Theorem pyfunc_output_size {pydouble cfloat dtype}
    (to_cfloat : pydouble -> cfloat) (to_dtype : cfloat -> dtype) py_fn pf time :
  match PyBridge.PyFunc_call to_cfloat to_dtype py_fn pf time with
  | PyBridge.PyOk out | PyBridge.PyError out => length out = length (PyBridge.output pf)
  | PyBridge.PyOutOfRange => PyBridge.output pf = []
  end.
Proof.
  unfold PyBridge.PyFunc_call.
  destruct (PyBridge.input_arg pf) as [arg|]; [|reflexivity]. cbv zeta.
  destruct (PyBridge.extract_float to_cfloat _) as [f|].
  - destruct (PyBridge.output pf) eqn:Eo; [reflexivity|].
    rewrite <- Eo. apply set_nth_length.
  - pose proof (write_items_size to_cfloat to_dtype
      (py_fn (if PyBridge.supply_time pf then Some time else None) arg)
      (length (PyBridge.output pf)) 0 (PyBridge.output pf)) as H.
    destruct (PyBridge.write_items _ _ _ _ _ _); [exact H|exact H|destruct H].
Qed.

(** ** The worker's probe data stream ([start_worker]) *)

Lemma app_inv_length {A} (l1 l2 r1 r2 : list A) :
  length l1 = length l2 -> l1 ++ r1 = l2 ++ r2 -> l1 = l2 /\ r1 = r2.
Proof.
  revert l2; induction l1 as [|x l1 IH]; intros [|y l2] Hl H; simpl in *;
    try discriminate Hl; [split; [reflexivity|exact H]|].
  injection H as -> H. destruct (IH l2 ltac:(lia) H) as [-> ->]. split; reflexivity.
Qed.

Lemma map_MMatrix_inj {key matrix} (d1 d2 : list matrix) :
  map (@Worker.MMatrix key matrix) d1 = map (@Worker.MMatrix key matrix) d2 -> d1 = d2.
Proof.
  revert d2; induction d1 as [|m d1 IH]; intros [|m' d2] H; simpl in *;
    try discriminate H; [reflexivity|].
  injection H as -> H. f_equal. apply IH. exact H.
Qed.

(** The messages a worker sends for its probes (for each probe its key, its
    number of samples, then the samples) determine the probes and their
    data: two different probe maps never give the same stream. *)
Theorem probe_messages_injective {key matrix} (pm1 pm2 : list (key * list matrix)) :
  WorkerProbes.probe_messages pm1 = WorkerProbes.probe_messages pm2 -> pm1 = pm2.
Proof.
  revert pm2; induction pm1 as [|[k1 d1] pm1 IH]; intros [|[k2 d2] pm2] H;
    unfold WorkerProbes.probe_messages in H; simpl in H;
    try discriminate H; [reflexivity|].
  injection H as -> Hlen H.
  apply Nat2Z.inj in Hlen.
  assert (Hl : length (map (@Worker.MMatrix key matrix) d1) =
               length (map (@Worker.MMatrix key matrix) d2))
    by (rewrite !length_map; exact Hlen).
  destruct (app_inv_length _ _ _ _ Hl H) as [Hd Hr].
  apply map_MMatrix_inj in Hd. subst d2. f_equal. apply IH. exact Hr.
Qed.

Lemma probe_messages_injective_witness :
  [(1, [10; 11]); (2, [])] = [(1, [10; 11]); (2, @nil nat)].
Proof.
  apply (probe_messages_injective (key := nat)). reflexivity.
Defined.
